(** * whatsapp_to_json: the transcript-to-dialogue pipeline

    A shallow embedding of [whatsapp_to_json.py] and the properties of its
    stages: line parsing, content sanitising and time-gap segmentation, role
    mapping, capacity selection and the duplicate-key JSON serializer.

    Python values are modelled as follows.
    - [str] is a list of Unicode code points ([N]), so that [len] counts
      characters the way Python does.
    - [datetime] is a record of calendar fields; differences of timestamps
      are taken in whole minutes (the parser only produces minute
      precision, so [total_seconds() / 60] is an exact integer).
    - [None] / an exception caught by the caller is [None] of [option].
    - The [continue]s of the sanitising loop are [None] of the per-message
      function [sanitize]; loops are folds over an explicit loop state.
    - [random.shuffle] is an explicit argument of the capacity selector. *)

From Stdlib Require Import String Ascii.
From Stdlib Require Import ZArith NArith List Bool Lia.
From stdpp Require Import base option list gmap.
Import ListNotations.

Local Open Scope N_scope.

(** ** Python strings *)

Module Str.

Definition char := N.
Definition str := list char.

(** An ASCII literal of the source, as a list of code points. *)
Definition lit (s : string) : str := map N_of_ascii (list_ascii_of_string s).

Definition NL : char := 10.
Definition CR : char := 13.
Definition SPACE : char := 32.
Definition DQUOTE : char := 34.
Definition BACKSLASH : char := 92.

(** [len(s)] *)
Definition len (s : str) : Z := Z.of_nat (length s).
Definition len_list {A} (l : list A) : Z := Z.of_nat (length l).

(** [str.isspace] on one character; also the class [\s] of [re] on [str]
    patterns: the ASCII controls 9-13 and 28-31, the space, and the Unicode
    white-space characters. *)
Definition isspace (c : char) : bool :=
  ((9 <=? c) && (c <=? 13)) || ((28 <=? c) && (c <=? 32))
  || (c =? 133) || (c =? 160) || (c =? 5760)
  || ((8192 <=? c) && (c <=? 8202))
  || (c =? 8232) || (c =? 8233) || (c =? 8239) || (c =? 8287) || (c =? 12288).

(** [s.lstrip()], [s.rstrip()], [s.strip()] *)
Fixpoint lstrip (s : str) : str :=
  match s with
  | c :: s' => if isspace c then lstrip s' else s
  | [] => []
  end.

Definition rstrip (s : str) : str := rev (lstrip (rev s)).

Definition strip (s : str) : str := rstrip (lstrip s).

(** [s.rstrip('\n')] *)
Fixpoint lstrip_char (x : char) (s : str) : str :=
  match s with
  | c :: s' => if c =? x then lstrip_char x s' else s
  | [] => []
  end.

Definition rstrip_char (x : char) (s : str) : str := rev (lstrip_char x (rev s)).

(** [s.startswith(p)] *)
Fixpoint startswith (p s : str) : bool :=
  match p, s with
  | [], _ => true
  | a :: p', b :: s' => (a =? b) && startswith p' s'
  | _ :: _, [] => false
  end.

(** [p in s] *)
Fixpoint contains (p s : str) : bool :=
  startswith p s ||
  match s with
  | [] => false
  | _ :: s' => contains p s'
  end.

(** [s.replace(x, y)] for one-character [x] and [y] *)
Definition replace_char (x y : char) (s : str) : str :=
  map (fun c => if c =? x then y else c) s.

(** [sep.join(parts)] *)
Definition join (sep : str) (parts : list str) : str :=
  match parts with
  | [] => []
  | p :: ps => p ++ flat_map (fun q => sep ++ q) ps
  end.

(** The decimal digits of Unicode (category Nd), which is what [\d] of [re]
    matches on [str] patterns and what [int] accepts: every run of ten
    starts at one of these code points (Unicode 14, Python 3.11). *)
Definition decimal_zeros : list N :=
  [48; 1632; 1776; 1984; 2406; 2534; 2662; 2790; 2918; 3046; 3174; 3302;
   3430; 3558; 3664; 3792; 3872; 4160; 4240; 6112; 6160; 6470; 6608; 6784;
   6800; 6992; 7088; 7232; 7248; 42528; 43216; 43264; 43472; 43504; 43600;
   44016; 65296; 66720; 68912; 69734; 69872; 69942; 70096; 70384; 70736;
   70864; 71248; 71360; 71472; 71904; 72016; 72784; 73040; 73120; 92768;
   92864; 93008; 120782; 120792; 120802; 120812; 120822; 123200; 123632;
   125264; 130032].

Definition decimal_value (c : char) : option Z :=
  match find (fun z => (z <=? c) && (c <? z + 10)) decimal_zeros with
  | Some z => Some (Z.of_N (c - z))
  | None => None
  end.

Definition isdecimal (c : char) : bool :=
  match decimal_value c with Some _ => true | None => false end.

(** [int(s)] for a non-empty string of decimal digits *)
Definition int (s : str) : option Z :=
  match s with
  | [] => None
  | _ => fold_left (fun acc c =>
                      match acc, decimal_value c with
                      | Some n, Some d => Some (10 * n + d)%Z
                      | _, _ => None
                      end) s (Some 0%Z)
  end.

End Str.
Import Str.

(** ** The regular expressions of [re], as far as the source uses them *)

Module Re.

Inductive regex :=
| Empty
| Class (p : char -> bool)
| Cat (r1 r2 : regex)
| Or (r1 r2 : regex)
| Repeat (lo : nat) (hi : option nat) (r : regex)
| Group (i : nat) (r : regex)
| Bos
| Eos.

Definition captures := list (nat * str).

Definition group (caps : captures) (i : nat) : str :=
  match find (fun e => Nat.eqb (fst e) i) caps with
  | Some e => snd e
  | None => []
  end.

(** A backtracking matcher in continuation-passing style: [exec w r s caps k]
    matches [r] at the suffix [s] of the whole subject [w] and hands the
    rest to [k]; alternatives are tried in order and repetitions are greedy,
    as in [re]. An unbounded repetition runs at most [length s] rounds:
    every repetition body of the two patterns consumes a character. *)
Fixpoint exec {A} (w : str) (r : regex) (s : str) (caps : captures)
    (k : str -> captures -> option A) {struct r} : option A :=
  match r with
  | Empty => k s caps
  | Class p =>
      match s with
      | c :: s' => if p c then k s' caps else None
      | [] => None
      end
  | Cat r1 r2 => exec w r1 s caps (fun s' caps' => exec w r2 s' caps' k)
  | Or r1 r2 =>
      match exec w r1 s caps k with
      | Some x => Some x
      | None => exec w r2 s caps k
      end
  | Repeat lo hi r1 =>
      (fix rounds (budget done : nat) (s : str) (caps : captures) : option A :=
         let stop := if Nat.leb lo done then k s caps else None in
         match budget with
         | O => stop
         | S budget' =>
             match exec w r1 s caps
                     (fun s' caps' => rounds budget' (S done) s' caps') with
             | Some x => Some x
             | None => stop
             end
         end) (match hi with Some h => h | None => length s end) O s caps
  | Group i r1 =>
      exec w r1 s caps
        (fun s' caps' => k s' ((i, take (length s - length s') s) :: caps'))
  | Bos => if Nat.eqb (length s) (length w) then k s caps else None
  | Eos =>
      match s with
      | [] => k s caps
      | [c] => if c =? NL then k s caps else None
      | _ => None
      end
  end.

(** [re.match(r, w)]: the rest of the subject after the match, and the groups *)
Definition rmatch (r : regex) (w : str) : option (str * captures) :=
  exec w r w [] (fun s caps => Some (s, caps)).

(** [re.search(r, w)] *)
Fixpoint search_from (r : regex) (w s : str) : option (str * captures) :=
  match exec w r s [] (fun s' caps => Some (s', caps)) with
  | Some x => Some x
  | None =>
      match s with
      | [] => None
      | _ :: s' => search_from r w s'
      end
  end.

Definition search (r : regex) (w : str) : option (str * captures) :=
  search_from r w w.

(** Pattern syntax *)
Definition chr (a : ascii) : regex := Class (fun c => c =? N_of_ascii a).
Definition range (a b : ascii) (c : char) : bool :=
  (N_of_ascii a <=? c) && (c <=? N_of_ascii b).
Definition one_of (s : string) (c : char) : bool :=
  existsb (fun x => c =? x) (lit s).
Fixpoint text (l : list ascii) : regex :=
  match l with
  | [] => Empty
  | [a] => chr a
  | a :: l' => Cat (chr a) (text l')
  end.
Definition str_re (s : string) : regex := text (list_ascii_of_string s).
Fixpoint seq (rs : list regex) : regex :=
  match rs with
  | [] => Empty
  | [r] => r
  | r :: rs' => Cat r (seq rs')
  end.
Fixpoint alt (rs : list regex) : regex :=
  match rs with
  | [] => Empty
  | [r] => r
  | r :: rs' => Or r (alt rs')
  end.
Definition digit : regex := Class isdecimal.               (* \d *)
Definition space : regex := Class isspace.                 (* \s *)
Definition dot : regex := Class (fun c => negb (c =? NL)). (* . *)
Definition plus (r : regex) : regex := Repeat 1 None r.
Definition star (r : regex) : regex := Repeat 0 None r.
Definition opt (r : regex) : regex := Repeat 0 (Some 1%nat) r.
Definition times (lo hi : nat) (r : regex) : regex := Repeat lo (Some hi) r.

End Re.
Import Re.

Local Open Scope Z_scope.

(** ** [datetime] *)

Record datetime := mk_datetime {
  year : Z; month : Z; day : Z; hour : Z; minute : Z
}.

Definition is_leap (y : Z) : bool :=
  (y mod 4 =? 0) && (negb (y mod 100 =? 0) || (y mod 400 =? 0)).

Definition days_in_month (y m : Z) : Z :=
  if m =? 2 then (if is_leap y then 29 else 28)
  else if (m =? 4) || (m =? 6) || (m =? 9) || (m =? 11) then 30
  else 31.

Definition days_before_year (y : Z) : Z :=
  let y := y - 1 in y * 365 + y / 4 - y / 100 + y / 400.

Definition days_before_month (y m : Z) : Z :=
  fold_left (fun acc k => acc + days_in_month y k)
            (map Z.of_nat (List.seq 1 (Z.to_nat (m - 1)))) 0.

(** [d.toordinal()] *)
Definition toordinal (d : datetime) : Z :=
  days_before_year (year d) + days_before_month (year d) (month d) + day d.

(** Minutes since the start of day 0 of the proleptic calendar. *)
Definition minutes_of (d : datetime) : Z :=
  toordinal d * 1440 + hour d * 60 + minute d.

(** [(a - b).total_seconds() / 60] *)
Definition minutes_between (a b : datetime) : Z := minutes_of a - minutes_of b.

(** [datetime(year, month, day, hour, minute)]; [None] is its [ValueError]. *)
Definition make_datetime (y m d h mi : Z) : option datetime :=
  if (1 <=? y) && (y <=? 9999) && (1 <=? m) && (m <=? 12)
     && (1 <=? d) && (d <=? days_in_month y m)
     && (0 <=? h) && (h <=? 23) && (0 <=? mi) && (mi <=? 59)
  then Some (mk_datetime y m d h mi) else None.

(** ** [datetime.strptime(s, '%m/%d/%y, %I:%M %p')]

    [_strptime] compiles the format to the regular expression below (each
    blank of the format becomes [\s+]), matches it case-insensitively at the
    start of the data and raises [ValueError] when it does not match, when
    data remain after the match, or when the fields are not a date. *)

Definition ci (a : ascii) : regex :=
  Class (fun c => (c =? N_of_ascii a)%N || (c + 32 =? N_of_ascii a)%N).

Definition format_regex : regex :=
  seq [ Group 1 (alt [Cat (chr "1") (Class (range "0" "2"));           (* %m *)
                      Cat (chr "0") (Class (range "1" "9"));
                      Class (range "1" "9")]);
        chr "/";
        Group 2 (alt [Cat (chr "3") (Class (range "0" "1"));           (* %d *)
                      Cat (Class (range "1" "2")) digit;
                      Cat (chr "0") (Class (range "1" "9"));
                      Class (range "1" "9");
                      Cat (chr " ") (Class (range "1" "9"))]);
        chr "/";
        Group 3 (Cat digit digit);                                     (* %y *)
        chr ","; plus space;
        Group 4 (alt [Cat (chr "1") (Class (range "0" "2"));           (* %I *)
                      Cat (chr "0") (Class (range "1" "9"));
                      Class (range "1" "9")]);
        chr ":";
        Group 5 (alt [Cat (Class (range "0" "5")) digit; digit]);      (* %M *)
        plus space;
        Group 6 (alt [Cat (ci "a") (ci "m"); Cat (ci "p") (ci "m")]) ].  (* %p *)

(** [s.lower()] on the letters A-Z *)
Definition lower (s : str) : str :=
  map (fun c => if (65 <=? c)%N && (c <=? 90)%N then (c + 32)%N else c) s.

Definition strptime (data_string : str) : option datetime :=
  match rmatch format_regex data_string with
  | None => None
  | Some (_ :: _, _) => None
  | Some ([], found) =>
      match int (group found 3), int (group found 1), int (group found 2),
            int (group found 4), int (group found 5) with
      | Some y, Some m, Some d, Some h, Some mi =>
          let y := if y <=? 68 then y + 2000 else y + 1900 in
          let ampm := lower (group found 6) in
          let h :=
            if decide (ampm = lit "am") then (if h =? 12 then 0 else h)
            else if decide (ampm = lit "pm") then (if h =? 12 then h else h + 12)
            else h in
          make_datetime y m d h mi
      | _, _, _, _, _ => None
      end
  end.

(** ** Messages and the Line Parser *)

Record Msg := mk_msg {
  timestamp : datetime;
  username : str;
  message : str
}.

Definition set_message (m : Msg) (text : str) : Msg :=
  mk_msg (timestamp m) (username m) text.

(** The pattern of the source, [^(G1)\s+-\s+([^:]+):\s+(G3)$] where G1 is
    [\d{1,2}/\d{1,2}/\d{2,4},\s+\d{1,2}:\d{2}\s+[AP]M] and G3 is [.*]. *)
Definition line_pattern : regex :=
  seq [ Bos;
        Group 1 (seq [times 1 2 digit; chr "/"; times 1 2 digit; chr "/";
                      times 2 4 digit; chr ","; plus space;
                      times 1 2 digit; chr ":"; times 2 2 digit; plus space;
                      Class (one_of "AP"); chr "M"]);
        plus space; chr "-"; plus space;
        Group 2 (plus (Class (fun c => negb (c =? N_of_ascii ":")%N)));
        chr ":"; plus space;
        Group 3 (star dot);
        Eos ].

Definition parse_whatsapp_line (line : str) : option Msg :=
  match rmatch line_pattern line with
  | Some (_, groups) =>
      let timestamp_str := group groups 1 in
      let username := group groups 2 in
      let message := group groups 3 in
      match strptime timestamp_str with
      | Some timestamp => Some (mk_msg timestamp (strip username) (strip message))
      | None => None
      end
  | None => None
  end.

(** ** The Transcript Assembler: the loop of [parse_whatsapp_chat] over the
    lines [readlines] returned. The state is the list [messages] and the
    accumulator [current_message]. *)

Definition assemble_step (st : list Msg * option Msg) (line : str)
  : list Msg * option Msg :=
  let '(messages, current_message) := st in
  let line := rstrip_char NL line in
  match parse_whatsapp_line line with
  | Some parsed =>
      (match current_message with
       | Some cur => messages ++ [cur]
       | None => messages
       end, Some parsed)
  | None =>
      match current_message with
      | Some cur =>
          match strip line with
          | [] => (messages, current_message)
          | _ :: _ =>
              (messages,
               Some (set_message cur (message cur ++ [SPACE] ++ strip line)))
          end
      | None => (messages, None)
      end
  end.

Definition parse_whatsapp_chat (lines : list str) : list Msg :=
  let '(messages, current_message) := fold_left assemble_step lines ([], None) in
  match current_message with
  | Some cur => messages ++ [cur]
  | None => messages
  end.

(** ** Link detection *)

Definition hexdigit (c : char) : bool :=
  range "0" "9" c || range "a" "f" c || range "A" "F" c.

(** The pattern of the source: [http[s]?://(?:A|B|C|D|(?:E))+] with the
    alternatives A = [[a-zA-Z]], B = [[0-9]], C = [[$-_@.&+]] (a range from
    the dollar sign to the underscore, and four more characters),
    D = the class of the six characters of ["!*\(),"], and
    E = [%[0-9a-fA-F][0-9a-fA-F]]. *)
Definition url_pattern : regex :=
  seq [ str_re "http"; opt (Class (one_of "s")); str_re "://";
        plus (alt [ Class (fun c => range "a" "z" c || range "A" "Z" c);
                    Class (range "0" "9");
                    Class (fun c => range "$" "_" c || one_of "@.&+" c);
                    Class (one_of "!*\(),");
                    seq [chr "%"; Class hexdigit; Class hexdigit] ]) ].

Definition contains_link (message : str) : bool :=
  match search url_pattern message with
  | Some _ => true
  | None => false
  end.

(** ** The Content Sanitizer and the Segmenter: [group_by_time_gap] *)

Definition MEDIA_MARKER : str := lit "<Media omitted>".

(** The body of the loop up to the block logic. [None] is a [continue]: the
    message is dropped. A replacement is used when it is true in Python's
    sense: neither [None] nor the empty string. *)

Definition handle_media (filter_media : bool) (media_replacement : option str)
    (msg : Msg) : option Msg :=
  if contains MEDIA_MARKER (message msg) then
    if filter_media then None
    else match media_replacement with
         | Some (c :: r) => Some (set_message msg (c :: r))
         | _ => Some msg
         end
  else Some msg.

Definition handle_links (filter_links : bool) (link_replacement : option str)
    (msg : Msg) : option Msg :=
  if contains_link (message msg) then
    if filter_links then None
    else match link_replacement with
         | Some (c :: r) => Some (set_message msg (c :: r))
         | _ => Some msg
         end
  else Some msg.

Definition skip_empty (msg : Msg) : option Msg :=
  match strip (message msg) with
  | [] => None
  | _ :: _ => Some msg
  end.

Definition remove_newlines (msg : Msg) : Msg :=
  set_message msg (replace_char CR SPACE (replace_char NL SPACE (message msg))).

Definition sanitize (filter_media filter_links : bool)
    (media_replacement link_replacement : option str) (msg : Msg) : option Msg :=
  match handle_media filter_media media_replacement msg with
  | None => None
  | Some msg =>
      match handle_links filter_links link_replacement msg with
      | None => None
      | Some msg =>
          match skip_empty msg with
          | None => None
          | Some msg => Some (remove_newlines msg)
          end
      end
  end.

(** The block logic; the state is [(blocks, current_block)]. *)
Definition segment_step (split_minutes : Z)
    (st : list (list Msg) * list Msg) (msg : Msg) : list (list Msg) * list Msg :=
  let '(blocks, current_block) := st in
  match last current_block with
  | None => (blocks, current_block ++ [msg])
  | Some prev =>
      let time_diff := minutes_between (timestamp msg) (timestamp prev) in
      if time_diff >? split_minutes
      then (blocks ++ [current_block], [msg])
      else (blocks, current_block ++ [msg])
  end.

Definition loop_step (split_minutes : Z) (filter_media filter_links : bool)
    (media_replacement link_replacement : option str)
    (st : list (list Msg) * list Msg) (msg : Msg) : list (list Msg) * list Msg :=
  match sanitize filter_media filter_links media_replacement link_replacement msg with
  | None => st
  | Some msg => segment_step split_minutes st msg
  end.

Definition flush (st : list (list Msg) * list Msg) : list (list Msg) :=
  match snd st with
  | [] => fst st
  | _ :: _ => fst st ++ [snd st]
  end.

Definition group_by_time_gap (messages : list Msg) (split_minutes : Z)
    (filter_media filter_links : bool)
    (media_replacement link_replacement : option str) : list (list Msg) :=
  match messages with
  | [] => []
  | _ :: _ =>
      flush (fold_left (loop_step split_minutes filter_media filter_links
                                  media_replacement link_replacement)
                       messages ([], []))
  end.

(** ** The Block Filter *)

Definition filter_single_speaker_blocks (blocks : list (list Msg)) (min_messages : Z)
  : list (list Msg) :=
  List.filter (fun block =>
            let speakers : gset str := list_to_set (map username block) in
            (2 <=? Z.of_nat (size speakers)) && (min_messages <=? len_list block))
         blocks.

(** ** The Role Mapper *)

Definition Conversation := list (str * str).

Definition USER_ROLE : str := lit "{{random_user_1}}".
Definition CHAR_ROLE : str := lit "{{char}}".

(** The inner loop; the state is [(conversation, speakers_present)]. *)
Definition convert_step (user_name char_name : str)
    (st : Conversation * gset str) (msg : Msg) : Conversation * gset str :=
  let '(conversation, speakers_present) := st in
  if decide (username msg = user_name) then
    (conversation ++ [(USER_ROLE, message msg)], {[USER_ROLE]} ∪ speakers_present)
  else if decide (username msg = char_name) then
    (conversation ++ [(CHAR_ROLE, message msg)], {[CHAR_ROLE]} ∪ speakers_present)
  else st.

Definition convert_block (user_name char_name : str) (block : list Msg)
  : Conversation * gset str :=
  fold_left (convert_step user_name char_name) block ([], ∅).

Definition convert_to_json_format (blocks : list (list Msg))
    (user_name char_name : str) : list Conversation :=
  fold_left
    (fun result block =>
       let '(conversation, speakers_present) :=
         convert_block user_name char_name block in
       if (2 <=? Z.of_nat (size speakers_present))
          && (match conversation with [] => false | _ :: _ => true end)
       then result ++ [conversation]
       else result)
    blocks [].

(** ** The Duplicate-Key Serializer *)

(** [json.dumps(value, ensure_ascii=False)] on a string: the quote, the
    backslash and the controls below 32 are escaped, everything else passes. *)
Definition hex_lower (n : N) : char :=
  (if n <? 10 then 48 + n else 87 + n)%N.

Definition escape_char (c : char) : str :=
  if (c =? DQUOTE)%N then [BACKSLASH; DQUOTE]
  else if (c =? BACKSLASH)%N then [BACKSLASH; BACKSLASH]
  else if (c =? 8)%N then BACKSLASH :: lit "b"
  else if (c =? 12)%N then BACKSLASH :: lit "f"
  else if (c =? NL)%N then BACKSLASH :: lit "n"
  else if (c =? CR)%N then BACKSLASH :: lit "r"
  else if (c =? 9)%N then BACKSLASH :: lit "t"
  else if (c <? 32)%N then
    BACKSLASH :: lit "u00" ++ [hex_lower (c / 16)%N; hex_lower (c mod 16)%N]
  else [c].

Definition json_dumps (value : str) : str :=
  [DQUOTE] ++ flat_map escape_char value ++ [DQUOTE].

(** The inner loop over [enumerate(conv)], from index [j], with [n = len(conv)] *)
Fixpoint pair_lines (n j : Z) (conv : Conversation) : list str :=
  match conv with
  | [] => []
  | (key, value) :: rest =>
      let escaped_value := json_dumps value in
      let line := lit "      " ++ [DQUOTE] ++ key ++ [DQUOTE] ++ lit ": "
                  ++ escaped_value in
      let line := if j <? n - 1 then line ++ lit "," else line in
      line :: pair_lines n (j + 1) rest
  end.

(** The outer loop over [enumerate(conversations)], from index [i] *)
Fixpoint conversation_lines (n i : Z) (conversations : list Conversation) : list str :=
  match conversations with
  | [] => []
  | conv :: rest =>
      [lit "    {"] ++ pair_lines (len_list conv) 0 conv
      ++ [if i <? n - 1 then lit "    }," else lit "    }"]
      ++ conversation_lines n (i + 1) rest
  end.

Definition serialize_to_json_with_duplicate_keys (conversations : list Conversation)
  : str :=
  let lines :=
    [lit "{";
     lit "  " ++ [DQUOTE] ++ lit "example_conversation" ++ [DQUOTE] ++ lit ": ["]
    ++ conversation_lines (len_list conversations) 0 conversations
    ++ [lit "  ]"; lit "}"] in
  join [NL] lines.

(** ** The Capacity Selector *)

(** One greedy pass: the [for] loop with its [break]. *)
Fixpoint greedy_fill (character_limit : Z) (result conversations : list Conversation)
  : list Conversation :=
  match conversations with
  | [] => result
  | conv :: rest =>
      let test_result := result ++ [conv] in
      let test_json := serialize_to_json_with_duplicate_keys test_result in
      if len test_json <=? character_limit
      then greedy_fill character_limit test_result rest
      else result
  end.

(** [shuffle] stands for [random.shuffle] on the copy of the list. *)
Definition fit_to_character_limit (shuffle : list Conversation -> list Conversation)
    (conversations : list Conversation) (character_limit : Z) : list Conversation :=
  let result := greedy_fill character_limit [] conversations in
  if Nat.eqb (length result) (length conversations) then result
  else if Nat.ltb (length result) (length conversations) then
    let conversations_copy := shuffle conversations in
    greedy_fill character_limit [] conversations_copy
  else result.

(** ** The pipeline, from the lines read to the text written *)

Definition generate_conversation_json (shuffle : list Conversation -> list Conversation)
    (lines : list str) (split_minutes character_limit : Z)
    (filter_media filter_links : bool) (user_name char_name : str)
    (min_messages_per_conversation : Z)
    (media_replacement link_replacement : option str) : str :=
  let messages := parse_whatsapp_chat lines in
  let blocks := group_by_time_gap messages split_minutes filter_media filter_links
                                  media_replacement link_replacement in
  let blocks := filter_single_speaker_blocks blocks min_messages_per_conversation in
  let conversations := convert_to_json_format blocks user_name char_name in
  let conversations := fit_to_character_limit shuffle conversations character_limit in
  serialize_to_json_with_duplicate_keys conversations.

(** ** A JSON reader

    The reader against which the serializer is checked: the grammar of
    RFC 8259 (objects, arrays, strings with their escapes, numbers and the
    three literals), keeping the members of an object in the order of the
    text, repeated keys included - what [json.loads] hands to an
    [object_pairs_hook]. *)

Module Json.

#[local] Set Warnings "-register-all".

Inductive value :=
| JNull
| JBool (b : bool)
| JNumber (lexeme : str)
| JString (s : str)
| JArray (items : list value)
| JObject (members : list (str * value)).

Definition is_ws (c : char) : bool :=
  ((c =? 32) || (c =? 9) || (c =? 10) || (c =? 13))%N.

Fixpoint skip_ws (s : str) : str :=
  match s with
  | c :: s' => if is_ws c then skip_ws s' else s
  | [] => []
  end.

Definition hex_value (c : char) : option N :=
  (if (48 <=? c) && (c <=? 57) then Some (c - 48)
   else if (97 <=? c) && (c <=? 102) then Some (c - 87)
   else if (65 <=? c) && (c <=? 70) then Some (c - 55)
   else None)%N.

Definition hex4 (a b c d : char) : option N :=
  match hex_value a, hex_value b, hex_value c, hex_value d with
  | Some x, Some y, Some z, Some w => Some (((x * 16 + y) * 16 + z) * 16 + w)%N
  | _, _, _, _ => None
  end.

(** The character an escape letter stands for. *)
Definition unescape (e : char) : option char :=
  (if e =? 34 then Some 34            (* quote *)
   else if e =? 92 then Some 92       (* backslash *)
   else if e =? 47 then Some 47       (* slash *)
   else if e =? 98 then Some 8        (* b *)
   else if e =? 102 then Some 12      (* f *)
   else if e =? 110 then Some 10      (* n *)
   else if e =? 114 then Some 13      (* r *)
   else if e =? 116 then Some 9       (* t *)
   else None)%N.

Definition push (c : char) (r : option (str * str)) : option (str * str) :=
  match r with
  | Some (t, rest) => Some (c :: t, rest)
  | None => None
  end.

(** The text of a string, read from behind its opening quote up to the
    closing quote. Raw control characters are refused; an escaped pair of
    surrogates is one character. *)
Fixpoint read_string (s : str) : option (str * str) :=
  match s with
  | [] => None
  | c :: s1 =>
      if (c =? DQUOTE)%N then Some ([], s1)
      else if (c =? BACKSLASH)%N then
        match s1 with
        | [] => None
        | e :: s2 =>
            if (e =? 117)%N then                               (* u *)
              match s2 with
              | h1 :: h2 :: h3 :: h4 :: s3 =>
                  match hex4 h1 h2 h3 h4 with
                  | None => None
                  | Some n =>
                      if ((55296 <=? n) && (n <=? 56319))%N then
                        match s3 with
                        | b :: u :: l1 :: l2 :: l3 :: l4 :: s4 =>
                            match hex4 l1 l2 l3 l4 with
                            | Some m =>
                                if ((b =? BACKSLASH) && (u =? 117)
                                    && (56320 <=? m) && (m <=? 57343))%N
                                then push (65536 + (n - 55296) * 1024
                                           + (m - 56320))%N (read_string s4)
                                else push n (read_string s3)
                            | None => push n (read_string s3)
                            end
                        | _ => push n (read_string s3)
                        end
                      else push n (read_string s3)
                  end
              | _ => None
              end
            else
              match unescape e with
              | Some d => push d (read_string s2)
              | None => None
              end
        end
      else if (c <? 32)%N then None
      else push c (read_string s1)
  end.

(** A number: an optional minus, [0] or a digit from 1 to 9 followed by
    digits, an optional fraction, an optional exponent. *)
Definition number_pattern : regex :=
  let d := Class (range "0" "9") in
  seq [ opt (chr "-");
        Or (chr "0") (Cat (Class (range "1" "9")) (star d));
        opt (Cat (chr ".") (plus d));
        opt (seq [Class (one_of "eE"); opt (Class (one_of "+-")); plus d]) ].

Definition read_number (s : str) : option (value * str) :=
  match exec s number_pattern s [] (fun rest _ => Some rest) with
  | Some rest => Some (JNumber (take (length s - length rest) s), rest)
  | None => None
  end.

Definition read_literal (s : str) : option (value * str) :=
  if startswith (lit "true") s then Some (JBool true, drop 4 s)
  else if startswith (lit "false") s then Some (JBool false, drop 5 s)
  else if startswith (lit "null") s then Some (JNull, drop 4 s)
  else read_number s.

Definition LBRACE : char := 123%N.
Definition RBRACE : char := 125%N.
Definition LBRACKET : char := 91%N.
Definition RBRACKET : char := 93%N.
Definition COMMA : char := 44%N.
Definition COLON : char := 58%N.

(** Recursive descent. [read_value], [read_items] and [read_members] start
    at the first character of a value, of an array item and of a member
    key; each call spends one unit of [fuel]. *)
Fixpoint read_value (fuel : nat) (s : str) {struct fuel} : option (value * str) :=
  match fuel with
  | O => None
  | S fuel' =>
      match s with
      | [] => None
      | c :: s1 =>
          if (c =? LBRACE)%N then
            match skip_ws s1 with
            | [] => None
            | c2 :: s2 =>
                if (c2 =? RBRACE)%N then Some (JObject [], s2)
                else match read_members fuel' (c2 :: s2) with
                     | Some (members, rest) => Some (JObject members, rest)
                     | None => None
                     end
            end
          else if (c =? LBRACKET)%N then
            match skip_ws s1 with
            | [] => None
            | c2 :: s2 =>
                if (c2 =? RBRACKET)%N then Some (JArray [], s2)
                else match read_items fuel' (c2 :: s2) with
                     | Some (items, rest) => Some (JArray items, rest)
                     | None => None
                     end
            end
          else if (c =? DQUOTE)%N then
            match read_string s1 with
            | Some (text, rest) => Some (JString text, rest)
            | None => None
            end
          else read_literal s
      end
  end
with read_items (fuel : nat) (s : str) {struct fuel} : option (list value * str) :=
  match fuel with
  | O => None
  | S fuel' =>
      match read_value fuel' s with
      | None => None
      | Some (item, rest) =>
          match skip_ws rest with
          | [] => None
          | c :: rest1 =>
              if (c =? COMMA)%N then
                match read_items fuel' (skip_ws rest1) with
                | Some (items, rest2) => Some (item :: items, rest2)
                | None => None
                end
              else if (c =? RBRACKET)%N then Some ([item], rest1)
              else None
          end
      end
  end
with read_members (fuel : nat) (s : str) {struct fuel}
  : option (list (str * value) * str) :=
  match fuel with
  | O => None
  | S fuel' =>
      match s with
      | [] => None
      | q :: s1 =>
          if (q =? DQUOTE)%N then
            match read_string s1 with
            | None => None
            | Some (key, rest) =>
                match skip_ws rest with
                | [] => None
                | c :: rest1 =>
                    if (c =? COLON)%N then
                      match read_value fuel' (skip_ws rest1) with
                      | None => None
                      | Some (item, rest2) =>
                          match skip_ws rest2 with
                          | [] => None
                          | c2 :: rest3 =>
                              if (c2 =? COMMA)%N then
                                match read_members fuel' (skip_ws rest3) with
                                | Some (members, rest4) =>
                                    Some ((key, item) :: members, rest4)
                                | None => None
                                end
                              else if (c2 =? RBRACE)%N
                              then Some ([(key, item)], rest3)
                              else None
                          end
                      end
                    else None
                end
            end
          else None
      end
  end.

(** [loads(s)]: one value, white space around it, nothing else. Every call
    of the descent starts at a different character or one level deeper at
    the same one, so twice the length and one are fuel enough. *)
Definition loads (s : str) : option value :=
  match read_value (2 * length s + 1) (skip_ws s) with
  | Some (v, rest) =>
      match skip_ws rest with
      | [] => Some v
      | _ :: _ => None
      end
  | None => None
  end.

End Json.

Import Json.

(** * The vocabulary of the properties *)

(** ** The Capacity Selector *)

(** Phase 1 accepts every conversation: each tentative selection, that is
    each non-empty prefix of the input, serializes within the budget. *)
Definition phase1_accepts_all (conversations : list Conversation)
    (character_limit : Z) : Prop :=
  forall k, (0 < k <= length conversations)%nat ->
    len (serialize_to_json_with_duplicate_keys (take k conversations))
    <= character_limit.

(** ** The Role Mapper *)

Section RoleVocabulary.

Variables user_name char_name : str.

(** The messages of a block that the inner loop keeps, and the pair it
    appends for each of them. *)
Definition known_speaker (m : Msg) : bool :=
  bool_decide (username m = user_name) || bool_decide (username m = char_name).

Definition role_pair (m : Msg) : str * str :=
  (if decide (username m = user_name) then USER_ROLE else CHAR_ROLE, message m).

Definition mapped (block : list Msg) : Conversation :=
  map role_pair (List.filter known_speaker block).

Definition roles_of (conv : Conversation) : gset str := list_to_set (map fst conv).

(** The test that ends the body of the outer loop. *)
Definition kept (block : list Msg) : bool :=
  (2 <=? Z.of_nat (size (roles_of (mapped block))))
  && (match mapped block with [] => false | _ :: _ => true end).

End RoleVocabulary.

#[local] Typeclasses Opaque roles_of.

(** ** The Segmenter *)

Section SegmentVocabulary.

Variable split_minutes : Z.

(** Minutes elapsed from message [a] to message [b]: the [time_diff] the
    loop computes when [b] arrives and [a] is the last message of the block. *)
Definition elapsed (a b : Msg) : Z :=
  minutes_between (timestamp b) (timestamp a).

(** Consecutive messages of a block are at most [split_minutes] apart. *)
Definition block_gaps_ok (block : list Msg) : Prop :=
  forall (i : nat) (a b : Msg),
    block !! i = Some a -> block !! (i + 1)%nat = Some b ->
    elapsed a b <= split_minutes.

(** From the last message of a block to the first of the next one there are
    more than [split_minutes]. *)
Definition boundaries_ok (blocks : list (list Msg)) : Prop :=
  forall (i : nat) (b1 b2 : list Msg) (a b : Msg),
    blocks !! i = Some b1 -> blocks !! (i + 1)%nat = Some b2 ->
    last b1 = Some a -> head b2 = Some b ->
    split_minutes < elapsed a b.

Definition segmented (blocks : list (list Msg)) : Prop :=
  Forall (fun block => block <> [] /\ block_gaps_ok block) blocks
  /\ boundaries_ok blocks.

(** The invariant of the loop: the blocks closed so far followed by the
    current block are segmented, and blocks are only closed once a current
    block exists. *)
Definition segment_inv (st : list (list Msg) * list Msg) : Prop :=
  segmented (flush st) /\ (snd st = [] -> fst st = []).

End SegmentVocabulary.

(** ** The Content Sanitizer *)

(** White space only *)
Definition blank (s : str) : bool := forallb isspace s.

(** ** The document read back *)

(** No quote, no backslash, no control character: such a key is read back
    as it is written between the quotes. *)
Definition plain (key : str) : bool :=
  forallb (fun c => negb (c =? DQUOTE)%N && negb (c =? BACKSLASH)%N
                    && negb (c <? 32)%N) key.

Definition plain_keys (conversations : list Conversation) : Prop :=
  Forall (Forall (fun p => plain (fst p) = true)) conversations.


(** The role tokens, as keys. *)
Definition role_keys (conversations : list Conversation) : Prop :=
  Forall (Forall (fun p => fst p = USER_ROLE \/ fst p = CHAR_ROLE)) conversations.

(** The object a conversation is read back as, and the whole document. *)
Definition members_of (conv : Conversation) : list (str * value) :=
  map (fun p => (fst p, JString (snd p))) conv.

Definition document_of (conversations : list Conversation) : value :=
  JObject [(lit "example_conversation",
            JArray (map (fun conv => JObject (members_of conv)) conversations))].

(** The lines of a list, each behind the separator: what [join] appends to
    the first line. *)
Definition behind_newlines (lines : list str) : str :=
  flat_map (fun q => [NL] ++ q) lines.

(** The (role, text) pairs of an object, in the order of the text. *)
Definition entries (v : value) : option Conversation :=
  match v with
  | JObject members =>
      mapM (fun m => match snd m with
                     | JString text => Some (fst m, text)
                     | _ => None
                     end) members
  | _ => None
  end.

(** The conversations of a document. *)
Definition example_conversation (doc : value) : option (list Conversation) :=
  match doc with
  | JObject [(key, JArray items)] =>
      if decide (key = lit "example_conversation") then mapM entries items
      else None
  | _ => None
  end.

(** * Further vocabulary *)

(** ** The Transcript Assembler *)

(** The header a line of the file is, if it is one: the Assembler parses the
    line without its trailing newlines. *)
Definition header_of (line : str) : option Msg :=
  parse_whatsapp_line (rstrip_char NL line).

(** The state of the loop of [parse_whatsapp_chat] after some lines, and the
    list the function returns from a state. *)
Definition assemble (lines : list str) : list Msg * option Msg :=
  fold_left assemble_step lines ([], None).

Definition finish (st : list Msg * option Msg) : list Msg :=
  match snd st with
  | Some cur => fst st ++ [cur]
  | None => fst st
  end.

(** A message grown from a header by continuation lines. *)
Definition grown_from (m h : Msg) : Prop :=
  timestamp m = timestamp h /\ username m = username h
  /\ exists tail, message m = message h ++ tail.

(** ** The Line Parser *)

(** A date of the calendar with a time of the day. *)
Definition valid_datetime (d : datetime) : Prop :=
  1 <= year d <= 9999 /\ 1 <= month d <= 12
  /\ 1 <= day d <= days_in_month (year d) (month d)
  /\ 0 <= hour d <= 23 /\ 0 <= minute d <= 59.

(** Neither the first nor the last character is white space. *)
Definition trimmed (s : str) : Prop :=
  forall c, head s = Some c \/ last s = Some c -> isspace c = false.

(** ** Link detection *)

(** A character the repeated group of the URL pattern accepts by one of its
    four character classes. *)
Definition url_char (c : char) : bool :=
  range "a" "z" c || range "A" "Z" c || range "0" "9" c
  || range "$" "_" c || one_of "@.&+" c || one_of "!*\()," c.

Definition starts_url (s : str) : bool :=
  match s with
  | c :: _ => url_char c
  | [] => false
  end.

(** A link starts here: [http://] or [https://] and one URL character. *)
Definition link_here (s : str) : bool :=
  (startswith (lit "http://") s && starts_url (drop 7 s))
  || (startswith (lit "https://") s && starts_url (drop 8 s)).

Fixpoint has_link (s : str) : bool :=
  link_here s ||
  match s with
  | [] => false
  | _ :: s' => has_link s'
  end.

(** The greedy rounds of a repetition, as [exec] runs them. *)
Definition rounds {A} (w : str) (lo : nat) (r1 : regex)
    (k : str -> captures -> option A) : nat -> nat -> str -> captures -> option A :=
  fix rounds (budget done : nat) (s : str) (caps : captures) : option A :=
    let stop := if Nat.leb lo done then k s caps else None in
    match budget with
    | O => stop
    | S budget' =>
        match exec w r1 s caps
                (fun s' caps' => rounds budget' (S done) s' caps') with
        | Some x => Some x
        | None => stop
        end
    end.

Definition matched {A} (o : option A) : bool :=
  match o with
  | Some _ => true
  | None => false
  end.

(** The repeated group of [url_pattern]. *)
Definition url_group : regex :=
  plus (alt [ Class (fun c => range "a" "z" c || range "A" "Z" c);
              Class (range "0" "9");
              Class (fun c => range "$" "_" c || one_of "@.&+" c);
              Class (one_of "!*\(),");
              seq [chr "%"; Class hexdigit; Class hexdigit] ]).

(** ** The Block Filter *)

(** Two messages of the block have different speakers. *)
Definition two_speakers (block : list Msg) : Prop :=
  exists m1 m2, m1 ∈ block /\ m2 ∈ block /\ username m1 <> username m2.

(** ** The length of the document *)

(** The number of characters [json.dumps] writes for a character. *)
Definition escape_width (c : char) : nat :=
  if ((c =? 34) || (c =? 92) || (c =? 8) || (c =? 12) || (c =? 10)
      || (c =? 13) || (c =? 9))%N then 2%nat
  else if (c <? 32)%N then 6%nat
  else 1%nat.

Definition dumps_length (text : str) : nat :=
  (2 + list_sum (map escape_width text))%nat.

(** The separators of a list: one less than its elements, none when empty. *)
Definition commas {X} (l : list X) : nat := Nat.pred (length l).

(** The line of a pair without the comma: six blanks, the key in quotes,
    a colon, a blank, the value. *)
Definition pair_length (p : str * str) : nat :=
  (10 + length (fst p) + dumps_length (snd p))%nat.

(** The lines of a conversation with their newlines: the two braces with
    their indentation, the pairs and the commas between them. *)
Definition conversation_length (conv : Conversation) : nat :=
  (12 + list_sum (map (fun p => 1 + pair_length p) conv) + commas conv)%nat.

Definition document_length (conversations : list Conversation) : nat :=
  (35 + list_sum (map conversation_length conversations)
   + commas conversations)%nat.

(** A selection within the budget. *)
Definition fits (character_limit : Z) (conversations : list Conversation) : Prop :=
  len (serialize_to_json_with_duplicate_keys conversations) <= character_limit.

(** ** The pipeline *)

(** A conversation as the pipeline may emit it: both roles occur, every key
    is a role token, every text is a single line. *)
Definition well_formed_conversation (conv : Conversation) : Prop :=
  (exists text, (USER_ROLE, text) ∈ conv)
  /\ (exists text, (CHAR_ROLE, text) ∈ conv)
  /\ Forall (fun p => (fst p = USER_ROLE \/ fst p = CHAR_ROLE)
                      /\ (NL ∉ snd p) /\ (CR ∉ snd p)) conv.

(** * Properties *)

(** ** The Capacity Selector *)

Section Selector.

Variable character_limit : Z.

Abbreviation serialize := serialize_to_json_with_duplicate_keys.

(** The length of the document of the empty selection. *)
Lemma serialize_empty_len : len (serialize []) = 35.
Proof. reflexivity. Qed.

(** A greedy pass returns its starting selection extended by a prefix of the
    conversations it walks. *)
Lemma greedy_fill_prefix (conversations result : list Conversation) :
  exists k, greedy_fill character_limit result conversations
            = result ++ take k conversations.
Proof.
  revert result.
  induction conversations as [|conv rest IH]; intros result; simpl.
  - exists 0%nat. by rewrite app_nil_r.
  - destruct (len (serialize (result ++ [conv])) <=? character_limit).
    + destruct (IH (result ++ [conv])) as [k Hk].
      exists (S k). by rewrite Hk, <- app_assoc.
    + exists 0%nat. by rewrite app_nil_r.
Qed.

(** A greedy pass keeps "empty, or within the budget". *)
Lemma greedy_fill_fits (conversations result : list Conversation) :
  result = [] \/ len (serialize result) <= character_limit ->
  greedy_fill character_limit result conversations = []
  \/ len (serialize (greedy_fill character_limit result conversations))
     <= character_limit.
Proof.
  revert result.
  induction conversations as [|conv rest IH]; intros result Hres; simpl.
  - exact Hres.
  - destruct (len (serialize (result ++ [conv])) <=? character_limit) eqn:Htest.
    + apply IH. right. lia.
    + exact Hres.
Qed.

(** When every tentative append passes the test, the pass takes everything. *)
Lemma greedy_fill_all (conversations result : list Conversation) :
  (forall k, (0 < k <= length conversations)%nat ->
             len (serialize (result ++ take k conversations)) <= character_limit) ->
  greedy_fill character_limit result conversations = result ++ conversations.
Proof.
  revert result.
  induction conversations as [|conv rest IH]; intros result Hall; simpl.
  - by rewrite app_nil_r.
  - pose proof (Hall 1%nat ltac:(simpl; lia)) as H1. simpl in H1.
    rewrite take_0 in H1.
    destruct (len (serialize (result ++ [conv])) <=? character_limit) eqn:Htest;
      [|lia].
    rewrite IH.
    + by rewrite <- app_assoc.
    + intros k Hk. rewrite <- app_assoc. apply (Hall (S k)). simpl. lia.
Qed.

Lemma fit_is_greedy (shuffle : list Conversation -> list Conversation)
    (conversations : list Conversation) :
  exists l, fit_to_character_limit shuffle conversations character_limit
            = greedy_fill character_limit [] l.
Proof.
  unfold fit_to_character_limit.
  destruct (Nat.eqb _ _); [by eexists|].
  destruct (Nat.ltb _ _); by eexists.
Qed.

End Selector.

(** C1 as stated fails: below 35 characters no selection fits, and the
    selector returns the empty selection, whose document has 35 characters. *)
Lemma fit_to_character_limit_small_budget :
  ~ (forall shuffle conversations character_limit,
        len (serialize_to_json_with_duplicate_keys
               (fit_to_character_limit shuffle conversations character_limit))
        <= character_limit).
Proof.
  intros H. specialize (H (fun l => l) [] 20). vm_compute in H. by apply H.
Qed.

(** C7: when phase 1 accepts every input conversation, the output is the
    input list in its order, for every shuffle: phase 2 is not run. *)
Theorem fit_to_character_limit_phase1_complete
    (shuffle : list Conversation -> list Conversation)
    (conversations : list Conversation) (character_limit : Z) :
  phase1_accepts_all conversations character_limit ->
  greedy_fill character_limit [] conversations = conversations
  /\ fit_to_character_limit shuffle conversations character_limit = conversations.
Proof.
  intros Hall.
  assert (Hgreedy : greedy_fill character_limit [] conversations = conversations).
  { rewrite greedy_fill_all; [done|]. intros k Hk. by apply Hall. }
  split; [exact Hgreedy|].
  unfold fit_to_character_limit. rewrite Hgreedy.
  by rewrite Nat.eqb_refl.
Qed.

Lemma fit_to_character_limit_phase1_complete_witness :
  fit_to_character_limit (fun l => rev l)
    [[(USER_ROLE, lit "hi"); (CHAR_ROLE, lit "hey")];
     [(USER_ROLE, lit "bye"); (CHAR_ROLE, lit "ok")]] 200
  = [[(USER_ROLE, lit "hi"); (CHAR_ROLE, lit "hey")];
     [(USER_ROLE, lit "bye"); (CHAR_ROLE, lit "ok")]].
Proof.
  refine (proj2 (fit_to_character_limit_phase1_complete _ _ _ _)).
  intros k Hk. simpl in Hk.
  destruct k as [|[|[|k]]]; [lia| | |lia]; vm_compute; discriminate.
Defined.

(** ** The Role Mapper *)

Section RoleMapper.

Variables user_name char_name : str.

Lemma mapped_cons_user (m : Msg) (block : list Msg) :
  username m = user_name ->
  mapped user_name char_name (m :: block)
  = (USER_ROLE, message m) :: mapped user_name char_name block.
Proof.
  intros Hu. unfold mapped, known_speaker, role_pair. cbn [List.filter].
  rewrite bool_decide_eq_true_2 by done. cbn [orb map].
  by rewrite decide_True.
Qed.

Lemma mapped_cons_char (m : Msg) (block : list Msg) :
  username m <> user_name -> username m = char_name ->
  mapped user_name char_name (m :: block)
  = (CHAR_ROLE, message m) :: mapped user_name char_name block.
Proof.
  intros Hu Hc. unfold mapped, known_speaker, role_pair. cbn [List.filter].
  rewrite bool_decide_eq_false_2, bool_decide_eq_true_2 by done. cbn [orb map].
  by rewrite decide_False.
Qed.

Lemma mapped_cons_other (m : Msg) (block : list Msg) :
  username m <> user_name -> username m <> char_name ->
  mapped user_name char_name (m :: block) = mapped user_name char_name block.
Proof.
  intros Hu Hc. unfold mapped, known_speaker. cbn [List.filter].
  by rewrite !bool_decide_eq_false_2.
Qed.

Lemma roles_of_cons (p : str * str) (conv : Conversation) :
  roles_of (p :: conv) = {[fst p]} ∪ roles_of conv.
Proof. reflexivity. Qed.

Lemma convert_fold (block : list Msg) (conv : Conversation) (present : gset str) :
  fold_left (convert_step user_name char_name) block (conv, present)
  = (conv ++ mapped user_name char_name block,
     roles_of (mapped user_name char_name block) ∪ present).
Proof.
  revert conv present.
  induction block as [|m block IH]; intros conv present.
  - cbn [fold_left]. rewrite app_nil_r. f_equal.
    change (mapped user_name char_name []) with (@nil (str * str)).
    change (roles_of []) with (∅ : gset str). by rewrite (left_id_L ∅ (∪)).
  - cbn [fold_left]. unfold convert_step at 2.
    destruct (decide (username m = user_name)) as [Hu|Hu].
    + rewrite IH, (mapped_cons_user m block Hu), roles_of_cons.
      cbn [fst]. rewrite <- app_assoc. f_equal.
      by rewrite (assoc_L (∪)), (comm_L (∪) (roles_of _)).
    + destruct (decide (username m = char_name)) as [Hc|Hc].
      * rewrite IH, (mapped_cons_char m block Hu Hc), roles_of_cons.
        cbn [fst]. rewrite <- app_assoc. f_equal.
        by rewrite (assoc_L (∪)), (comm_L (∪) (roles_of _)).
      * by rewrite IH, (mapped_cons_other m block Hu Hc).
Qed.

Lemma convert_block_eq (block : list Msg) :
  convert_block user_name char_name block
  = (mapped user_name char_name block,
     roles_of (mapped user_name char_name block)).
Proof.
  unfold convert_block. rewrite convert_fold. cbn [app]. f_equal.
  by rewrite (right_id_L ∅ (∪)).
Qed.

Lemma mapped_roles (block : list Msg) :
  Forall (fun p => fst p = USER_ROLE \/ fst p = CHAR_ROLE)
         (mapped user_name char_name block).
Proof.
  unfold mapped. apply Forall_map, Forall_forall. intros m _.
  unfold role_pair. simpl. destruct (decide _); auto.
Qed.

Lemma roles_of_elem (role : str) (conv : Conversation) :
  role ∈ roles_of conv -> exists text, (role, text) ∈ conv.
Proof.
  unfold roles_of. rewrite elem_of_list_to_set, list_elem_of_fmap.
  intros [[r t] [-> Hin]]. by exists t.
Qed.

Lemma roles_of_sub (conv : Conversation) :
  Forall (fun p => fst p = USER_ROLE \/ fst p = CHAR_ROLE) conv ->
  roles_of conv ⊆ {[USER_ROLE; CHAR_ROLE]}.
Proof.
  intros Hall role. unfold roles_of.
  rewrite elem_of_list_to_set, list_elem_of_fmap.
  intros [p [-> Hin]]. rewrite Forall_forall in Hall.
  destruct (Hall p Hin) as [-> | ->]; set_solver.
Qed.

(** A set of roles with two elements holds both roles. *)
Lemma two_roles (present : gset str) :
  present ⊆ {[USER_ROLE; CHAR_ROLE]} -> (2 <= size present)%nat ->
  USER_ROLE ∈ present /\ CHAR_ROLE ∈ present.
Proof.
  intros Hsub Hsize. split.
  - destruct (decide (USER_ROLE ∈ present)) as [|Hno]; [done|].
    assert (Hone : present ⊆ {[CHAR_ROLE]}).
    { intros role Hrole. pose proof (Hsub role Hrole) as Hboth.
      apply elem_of_union in Hboth as [Hin|Hin]; [|done].
      apply elem_of_singleton in Hin. by subst role. }
    apply subseteq_size in Hone. rewrite size_singleton in Hone. lia.
  - destruct (decide (CHAR_ROLE ∈ present)) as [|Hno]; [done|].
    assert (Hone : present ⊆ {[USER_ROLE]}).
    { intros role Hrole. pose proof (Hsub role Hrole) as Hboth.
      apply elem_of_union in Hboth as [Hin|Hin]; [done|].
      apply elem_of_singleton in Hin. by subst role. }
    apply subseteq_size in Hone. rewrite size_singleton in Hone. lia.
Qed.

Lemma convert_outer (blocks : list (list Msg)) (result : list Conversation) :
  fold_left
    (fun result block =>
       let '(conversation, speakers_present) :=
         convert_block user_name char_name block in
       if (2 <=? Z.of_nat (size speakers_present))
          && (match conversation with [] => false | _ :: _ => true end)
       then result ++ [conversation]
       else result)
    blocks result
  = result ++ map (mapped user_name char_name)
        (List.filter (kept user_name char_name) blocks).
Proof.
  revert result.
  induction blocks as [|block blocks IH]; intros result;
    cbn [fold_left List.filter].
  - by rewrite app_nil_r.
  - rewrite convert_block_eq. fold (kept user_name char_name block).
    destruct (kept user_name char_name block); rewrite IH; [|done].
    cbn [map]. by rewrite <- app_assoc.
Qed.

Lemma convert_to_json_format_eq (blocks : list (list Msg)) :
  convert_to_json_format blocks user_name char_name
  = map (mapped user_name char_name)
        (List.filter (kept user_name char_name) blocks).
Proof. unfold convert_to_json_format. by rewrite convert_outer. Qed.

End RoleMapper.

(** C5: every conversation that [convert_to_json_format] emits is non-empty,
    has a pair of each role, has no other role, and is the image, in order,
    of the messages of one input block whose speaker is [user_name] or
    [char_name]: no pair comes from another speaker. *)
Theorem convert_to_json_format_roles
    (blocks : list (list Msg)) (user_name char_name : str) (conv : Conversation) :
  conv ∈ convert_to_json_format blocks user_name char_name ->
  conv <> []
  /\ (exists text, (USER_ROLE, text) ∈ conv)
  /\ (exists text, (CHAR_ROLE, text) ∈ conv)
  /\ Forall (fun p => fst p = USER_ROLE \/ fst p = CHAR_ROLE) conv
  /\ exists block, block ∈ blocks
       /\ conv = map (role_pair user_name)
                     (List.filter (known_speaker user_name char_name) block).
Proof.
  rewrite convert_to_json_format_eq, list_elem_of_fmap.
  intros [block [-> Hin]].
  apply list_elem_of_In, filter_In in Hin. destruct Hin as [Hin Hkept].
  unfold kept in Hkept. apply andb_true_iff in Hkept. destruct Hkept as [Hsize Hne].
  pose proof (mapped_roles user_name char_name block) as Hroles.
  destruct (two_roles _ (roles_of_sub _ Hroles)) as [Hu Hc]; [lia|].
  split; [by destruct (mapped user_name char_name block)|].
  split; [by apply roles_of_elem|].
  split; [by apply roles_of_elem|].
  split; [done|].
  exists block. split; [by apply list_elem_of_In|done].
Qed.

(** C10: with [user_name = char_name] no block is kept. *)
Theorem convert_to_json_format_same_name (blocks : list (list Msg)) (name : str) :
  convert_to_json_format blocks name name = [].
Proof.
  rewrite convert_to_json_format_eq.
  replace (List.filter (kept name name) blocks) with (@nil (list Msg)); [done|].
  symmetry. induction blocks as [|block blocks IH]; [done|]. simpl.
  replace (kept name name block) with false; [done|].
  symmetry. unfold kept. apply andb_false_iff. left.
  assert (Hone : roles_of (mapped name name block) ⊆ {[USER_ROLE]}).
  { intros role. unfold roles_of, mapped.
    rewrite elem_of_list_to_set, list_elem_of_fmap.
    intros [p [-> Hin]]. apply list_elem_of_fmap in Hin.
    destruct Hin as [m [-> Hin]].
    apply list_elem_of_In, filter_In in Hin. destruct Hin as [_ Hknown].
    unfold known_speaker in Hknown. rewrite orb_diag in Hknown.
    apply bool_decide_eq_true_1 in Hknown.
    unfold role_pair. simpl. rewrite decide_True by done. set_solver. }
  apply subseteq_size in Hone. rewrite size_singleton in Hone.
  apply Z.leb_gt. lia.
Qed.

(** ** The Segmenter *)

(** An invariant of a loop is an invariant of its fold. *)
Lemma fold_left_invariant {S X : Type} (P : S -> Prop) (f : S -> X -> S)
    (l : list X) (init : S) :
  P init -> (forall st x, P st -> P (f st x)) -> P (fold_left f l init).
Proof.
  intros Hinit Hstep. revert init Hinit.
  induction l as [|x l IH]; intros init Hinit; simpl; auto.
Qed.

Section Segmenter.

Variable split_minutes : Z.

Lemma block_gaps_ok_single (m : Msg) : block_gaps_ok split_minutes [m].
Proof.
  intros i a b _ Hb. apply lookup_lt_Some in Hb. simpl in Hb. lia.
Qed.

Lemma block_gaps_ok_snoc (block : list Msg) (prev m : Msg) :
  block_gaps_ok split_minutes block -> last block = Some prev ->
  elapsed prev m <= split_minutes ->
  block_gaps_ok split_minutes (block ++ [m]).
Proof.
  intros Hok Hlast Hgap i a b Ha Hb.
  assert (Hi : (i + 1 < length (block ++ [m]))%nat) by by eapply lookup_lt_Some.
  rewrite length_app in Hi. simpl in Hi.
  rewrite lookup_app_l in Ha by lia.
  destruct (decide (i + 1 < length block)%nat) as [Hlt|Hge].
  - rewrite lookup_app_l in Hb by lia. exact (Hok i a b Ha Hb).
  - rewrite lookup_app_r in Hb by lia.
    replace (i + 1 - length block)%nat with 0%nat in Hb by lia.
    simpl in Hb. injection Hb as <-.
    rewrite last_lookup in Hlast.
    replace (pred (length block)) with i in Hlast by lia.
    rewrite Hlast in Ha. injection Ha as <-. exact Hgap.
Qed.

Lemma segmented_nil : segmented split_minutes [].
Proof.
  split; [constructor|]. intros i b1 b2 a b Hb1. by rewrite lookup_nil in Hb1.
Qed.

Lemma segmented_first (m : Msg) : segmented split_minutes [[m]].
Proof.
  split.
  - repeat constructor; [done|apply block_gaps_ok_single].
  - intros i b1 b2 a b _ Hb2. apply lookup_lt_Some in Hb2. simpl in Hb2. lia.
Qed.

(** Closing the current block and opening a new one with [m]. *)
Lemma segmented_new_block (blocks : list (list Msg)) (cur : list Msg) (prev m : Msg) :
  segmented split_minutes (blocks ++ [cur]) -> last cur = Some prev ->
  split_minutes < elapsed prev m ->
  segmented split_minutes ((blocks ++ [cur]) ++ [[m]]).
Proof.
  intros [Hblocks Hbound] Hlast Hgap. split.
  - apply Forall_app. split; [done|].
    repeat constructor; [done|apply block_gaps_ok_single].
  - intros i b1 b2 a b Hb1 Hb2 Ha Hb.
    assert (Hi : (i + 1 < length ((blocks ++ [cur]) ++ [[m]]))%nat)
      by by eapply lookup_lt_Some.
    rewrite !length_app in Hi. simpl in Hi.
    rewrite lookup_app_l in Hb1 by (rewrite length_app; simpl; lia).
    destruct (decide (i + 1 < length blocks + 1)%nat) as [Hlt|Hge].
    + rewrite lookup_app_l in Hb2 by (rewrite length_app; simpl; lia).
      exact (Hbound i b1 b2 a b Hb1 Hb2 Ha Hb).
    + rewrite lookup_app_r in Hb2 by (rewrite length_app; simpl; lia).
      rewrite length_app in Hb2. simpl in Hb2.
      replace (i + 1 - (length blocks + 1))%nat with 0%nat in Hb2 by lia.
      simpl in Hb2. injection Hb2 as <-. simpl in Hb. injection Hb as <-.
      rewrite lookup_app_r in Hb1 by lia.
      replace (i - length blocks)%nat with 0%nat in Hb1 by lia.
      simpl in Hb1. injection Hb1 as <-.
      rewrite Hlast in Ha. injection Ha as <-. exact Hgap.
Qed.

(** Appending [m] to the current block. *)
Lemma segmented_extend (blocks : list (list Msg)) (cur : list Msg) (prev m : Msg) :
  segmented split_minutes (blocks ++ [cur]) -> last cur = Some prev ->
  elapsed prev m <= split_minutes ->
  segmented split_minutes (blocks ++ [cur ++ [m]]).
Proof.
  intros [Hblocks Hbound] Hlast Hgap.
  apply Forall_app in Hblocks. destruct Hblocks as [Hblocks Hcur].
  rewrite Forall_singleton in Hcur. destruct Hcur as [Hne Hcur].
  split.
  - apply Forall_app. split; [done|]. rewrite Forall_singleton. split.
    + destruct cur; simpl; discriminate.
    + by eapply block_gaps_ok_snoc.
  - intros i b1 b2 a b Hb1 Hb2 Ha Hb.
    assert (Hi : (i + 1 < length (blocks ++ [cur ++ [m]]))%nat)
      by by eapply lookup_lt_Some.
    rewrite length_app in Hi. simpl in Hi.
    rewrite lookup_app_l in Hb1 by lia.
    destruct (decide (i + 1 < length blocks)%nat) as [Hlt|Hge].
    + rewrite lookup_app_l in Hb2 by lia.
      apply (Hbound i b1 b2 a b); try done.
      * by rewrite lookup_app_l by lia.
      * by rewrite lookup_app_l by lia.
    + rewrite lookup_app_r in Hb2 by lia.
      replace (i + 1 - length blocks)%nat with 0%nat in Hb2 by lia.
      simpl in Hb2. injection Hb2 as <-.
      apply (Hbound i b1 cur a b); try done.
      * by rewrite lookup_app_l by lia.
      * rewrite lookup_app_r by lia.
        by replace (i + 1 - length blocks)%nat with 0%nat by lia.
      * destruct cur; [done|]. exact Hb.
Qed.

Lemma segment_step_inv (st : list (list Msg) * list Msg) (m : Msg) :
  segment_inv split_minutes st ->
  segment_inv split_minutes (segment_step split_minutes st m).
Proof.
  destruct st as [blocks cur]. unfold segment_inv, flush, segment_step.
  cbn [fst snd]. intros [Hseg Hempty].
  destruct (last cur) as [prev|] eqn:Hlast.
  - assert (Hcur : cur <> []) by (intros ->; discriminate).
    destruct cur as [|c cur']; [done|]. 
    destruct (Z.gtb_spec (minutes_between (timestamp m) (timestamp prev))
                split_minutes) as [Hgt|Hle]; cbn [fst snd].
    + split; [|done]. by eapply segmented_new_block.
    + split.
      * change ((c :: cur') ++ [m]) with (c :: (cur' ++ [m])).
        change (c :: (cur' ++ [m])) with ((c :: cur') ++ [m]).
        by eapply segmented_extend.
      * done.
  - apply last_None in Hlast. subst cur. rewrite (Hempty eq_refl).
    cbn [fst snd app]. split; [apply segmented_first|done].
Qed.

End Segmenter.

(** C3: in the output of [group_by_time_gap], every block is non-empty, two
    consecutive messages of a block are at most [split_minutes] apart (the
    earlier one being the last message appended before the later one), and
    from the last message of a block to the first message of the next block
    more than [split_minutes] elapse. *)
Theorem group_by_time_gap_segmented
    (messages : list Msg) (split_minutes : Z) (filter_media filter_links : bool)
    (media_replacement link_replacement : option str) :
  segmented split_minutes
    (group_by_time_gap messages split_minutes filter_media filter_links
                       media_replacement link_replacement).
Proof.
  unfold group_by_time_gap. destruct messages as [|m0 messages].
  - apply segmented_nil.
  - apply (fold_left_invariant (segment_inv split_minutes)).
    + split; [apply segmented_nil|done].
    + intros st m Hinv. unfold loop_step.
      destruct (sanitize _ _ _ _ m); [by apply segment_step_inv|done].
Qed.

(** ** The Content Sanitizer *)

Lemma lstrip_nil (s : str) : lstrip s = [] <-> blank s = true.
Proof.
  induction s as [|c s IH]; simpl; [done|].
  destruct (isspace c); simpl; [exact IH|]. split; discriminate.
Qed.

Lemma blank_lstrip (s : str) : blank (lstrip s) = blank s.
Proof.
  induction s as [|c s IH]; simpl; [done|].
  destruct (isspace c) eqn:Hc; simpl; [exact IH|]. by rewrite Hc.
Qed.

Lemma blank_rev (s : str) : blank (rev s) = blank s.
Proof.
  unfold blank. induction s as [|c s IH]; simpl; [done|].
  rewrite forallb_app, IH. simpl. rewrite andb_true_r. apply andb_comm.
Qed.

Lemma strip_nil (s : str) : strip s = [] <-> blank s = true.
Proof.
  unfold strip, rstrip. split.
  - intros H. apply (f_equal (@rev char)) in H. rewrite rev_involutive in H.
    simpl in H. apply lstrip_nil in H. by rewrite blank_rev, blank_lstrip in H.
  - intros H. assert (Hl : lstrip (rev (lstrip s)) = []).
    { apply lstrip_nil. by rewrite blank_rev, blank_lstrip. }
    by rewrite Hl.
Qed.

Lemma blank_replace_char (x : char) (s : str) :
  isspace x = true -> blank (replace_char x SPACE s) = blank s.
Proof.
  intros Hx. unfold blank, replace_char.
  induction s as [|c s IH]; simpl; [done|]. rewrite IH. f_equal.
  destruct (N.eqb_spec c x) as [->|]; [by rewrite Hx|done].
Qed.

Lemma remove_newlines_blank (m : Msg) :
  blank (message (remove_newlines m)) = blank (message m).
Proof.
  unfold remove_newlines. simpl. by rewrite !blank_replace_char.
Qed.

(** What the sanitizer keeps has a body that is not blank. *)
Lemma sanitize_not_blank (filter_media filter_links : bool)
    (media_replacement link_replacement : option str) (msg kept : Msg) :
  sanitize filter_media filter_links media_replacement link_replacement msg
  = Some kept ->
  blank (message kept) = false.
Proof.
  unfold sanitize.
  destruct (handle_media _ _ msg) as [m1|]; [|done].
  destruct (handle_links _ _ m1) as [m2|]; [|done].
  unfold skip_empty. destruct (strip (message m2)) eqn:Hstrip; [done|].
  intros [= <-]. rewrite remove_newlines_blank.
  destruct (blank (message m2)) eqn:Hblank; [|done].
  apply strip_nil in Hblank. congruence.
Qed.

(** A replacement that is [None] or the empty string is not used. *)
Lemma handle_media_empty (filter_media : bool) (msg : Msg) :
  handle_media filter_media (Some []) msg = handle_media filter_media None msg.
Proof. reflexivity. Qed.

Lemma handle_links_empty (filter_links : bool) (msg : Msg) :
  handle_links filter_links (Some []) msg = handle_links filter_links None msg.
Proof. reflexivity. Qed.

Lemma handle_media_unset (msg : Msg) : handle_media false None msg = Some msg.
Proof. unfold handle_media. by destruct (contains _ _). Qed.

Lemma handle_links_unset (msg : Msg) : handle_links false None msg = Some msg.
Proof. unfold handle_links. by destruct (contains_link _). Qed.


(** C9: a replacement that is the empty string behaves as an absent
    replacement: with the filter flag off the media step and the link step
    leave the message as it is, and sanitizing and grouping give the same
    result as with [None]. *)
Theorem empty_replacement_is_unset
    (messages : list Msg) (msg : Msg) (split_minutes : Z)
    (filter_media filter_links : bool)
    (media_replacement link_replacement : option str) :
  handle_media false (Some []) msg = Some msg
  /\ handle_links false (Some []) msg = Some msg
  /\ sanitize filter_media filter_links (Some []) link_replacement msg
     = sanitize filter_media filter_links None link_replacement msg
  /\ sanitize filter_media filter_links media_replacement (Some []) msg
     = sanitize filter_media filter_links media_replacement None msg
  /\ group_by_time_gap messages split_minutes filter_media filter_links
                       (Some []) link_replacement
     = group_by_time_gap messages split_minutes filter_media filter_links
                         None link_replacement
  /\ group_by_time_gap messages split_minutes filter_media filter_links
                       media_replacement (Some [])
     = group_by_time_gap messages split_minutes filter_media filter_links
                         media_replacement None.
Proof.
  split; [by rewrite handle_media_empty, handle_media_unset|].
  split; [by rewrite handle_links_empty, handle_links_unset|].
  (* the match on the replacement takes the same branch for [Some []] and
     for [None], so both sides compute to the same term *)
  repeat split; reflexivity.
Qed.

(** ** Message bodies *)

(** C4, as amended: every message of every block that [group_by_time_gap]
    returns has a body that is not empty, and indeed not blank. *)
Theorem group_by_time_gap_bodies
    (messages : list Msg) (split_minutes : Z) (filter_media filter_links : bool)
    (media_replacement link_replacement : option str) (block : list Msg) (m : Msg) :
  block ∈ group_by_time_gap messages split_minutes filter_media filter_links
                            media_replacement link_replacement ->
  m ∈ block ->
  message m <> [] /\ strip (message m) <> [].
Proof.
  intros Hblock Hm.
  assert (Hall : Forall (Forall (fun m => blank (message m) = false))
                   (group_by_time_gap messages split_minutes filter_media
                      filter_links media_replacement link_replacement)).
  { unfold group_by_time_gap. destruct messages as [|m0 messages]; [constructor|].
    set (inv := fun st : list (list Msg) * list Msg =>
                  Forall (Forall (fun m => blank (message m) = false)) (fst st)
                  /\ Forall (fun m => blank (message m) = false) (snd st)).
    assert (Hinv : inv (fold_left (loop_step split_minutes filter_media
                      filter_links media_replacement link_replacement)
                      (m0 :: messages) ([], []))).
    { apply (fold_left_invariant inv); [by split|].
      intros [blocks cur] x [Hblocks Hcur]. unfold loop_step.
      destruct (sanitize _ _ _ _ x) as [x'|] eqn:Hx; [|by split].
      apply sanitize_not_blank in Hx. unfold segment_step.
      destruct (last cur) as [prev|].
      - destruct (_ >? _); split; cbn [fst snd].
        + apply Forall_app. split; [done|]. by apply Forall_singleton.
        + by apply Forall_singleton.
        + done.
        + apply Forall_app. split; [done|]. by apply Forall_singleton.
      - split; [done|]. cbn [snd]. apply Forall_app. split; [done|].
        by apply Forall_singleton. }
    destruct Hinv as [Hblocks Hcur]. unfold flush.
    destruct (snd _) eqn:Hsnd; [done|].
    apply Forall_app. split; [done|]. by apply Forall_singleton. }
  rewrite Forall_forall in Hall. specialize (Hall block Hblock).
  rewrite Forall_forall in Hall. specialize (Hall m Hm).
  split.
  - intros Hnil. by rewrite Hnil in Hall.
  - intros Hnil. apply strip_nil in Hnil. congruence.
Qed.

(** ** The Duplicate-Key Serializer, read back *)

Section RoundTrip.

Lemma read_string_plain (key rest : str) :
  plain key = true -> read_string (key ++ DQUOTE :: rest) = Some (key, rest).
Proof.
  induction key as [|c key IH]; intros Hplain.
  - reflexivity.
  - cbn [plain forallb] in Hplain.
    apply andb_true_iff in Hplain. destruct Hplain as [Hc Hkey].
    apply andb_true_iff in Hc. destruct Hc as [Hc H32].
    apply andb_true_iff in Hc. destruct Hc as [Hq Hb].
    apply negb_true_iff in Hq, Hb, H32.
    cbn [app read_string]. rewrite Hq, Hb, H32, (IH Hkey). reflexivity.
Qed.

Lemma control_cases (c : char) :
  (c < 32)%N ->
  In c [0; 1; 2; 3; 4; 5; 6; 7; 8; 9; 10; 11; 12; 13; 14; 15; 16; 17; 18; 19;
        20; 21; 22; 23; 24; 25; 26; 27; 28; 29; 30; 31]%N.
Proof. intros H. cbn [In]. lia. Qed.

(** Reading an escaped character gives the character back. *)
Lemma read_string_escape (c : char) (s : str) :
  read_string (escape_char c ++ s) = push c (read_string s).
Proof.
  destruct (N.ltb_spec c 32) as [Hlt|Hge].
  - apply control_cases in Hlt. cbn [In] in Hlt.
    repeat (destruct Hlt as [<-|Hlt]; [reflexivity|]). destruct Hlt.
  - unfold escape_char.
    destruct (N.eqb_spec c DQUOTE) as [->|Hq]; [reflexivity|].
    destruct (N.eqb_spec c BACKSLASH) as [->|Hb]; [reflexivity|].
    destruct (N.eqb_spec c 8) as [->|_]; [reflexivity|].
    destruct (N.eqb_spec c 12) as [->|_]; [reflexivity|].
    destruct (N.eqb_spec c NL) as [->|_]; [reflexivity|].
    destruct (N.eqb_spec c CR) as [->|_]; [reflexivity|].
    destruct (N.eqb_spec c 9) as [->|_]; [reflexivity|].
    destruct (N.ltb_spec c 32) as [Hlt|_]; [lia|].
    cbn [app read_string].
    apply N.eqb_neq in Hq, Hb. apply N.ltb_ge in Hge.
    by rewrite Hq, Hb, Hge.
Qed.

Lemma read_string_dumps (text rest : str) :
  read_string (flat_map escape_char text ++ DQUOTE :: rest) = Some (text, rest).
Proof.
  induction text as [|c text IH].
  - reflexivity.
  - cbn [flat_map]. rewrite <- app_assoc, read_string_escape, IH. reflexivity.
Qed.


Lemma behind_newlines_cons (line : str) (lines : list str) :
  behind_newlines (line :: lines) = NL :: line ++ behind_newlines lines.
Proof. reflexivity. Qed.

Lemma behind_newlines_app (l1 l2 : list str) :
  behind_newlines (l1 ++ l2) = behind_newlines l1 ++ behind_newlines l2.
Proof. apply flat_map_app. Qed.

(** The shape of the line of a pair. *)
Lemma pair_lines_cons (n j : Z) (key text : str) (conv : Conversation) :
  pair_lines n j ((key, text) :: conv)
  = (lit "      " ++ DQUOTE :: key ++ DQUOTE :: lit ": " ++ DQUOTE
       :: flat_map escape_char text ++ DQUOTE
       :: (if j <? n - 1 then lit "," else []))
    :: pair_lines n (j + 1) conv.
Proof.
  cbn [pair_lines]. unfold json_dumps. f_equal.
  destruct (j <? n - 1); rewrite <- ?app_assoc; reflexivity.
Qed.

Lemma read_value_string (fuel : nat) (s : str) :
  read_value (S fuel) (DQUOTE :: s)
  = match read_string s with
    | Some (text, rest) => Some (JString text, rest)
    | None => None
    end.
Proof. reflexivity. Qed.

(** One member: the key, the colon, the string. *)
Lemma read_members_step (fuel : nat) (key text tail : str) :
  plain key = true ->
  read_members (S (S fuel))
    (DQUOTE :: key ++ DQUOTE :: lit ": " ++ DQUOTE
       :: flat_map escape_char text ++ DQUOTE :: tail)
  = match skip_ws tail with
    | [] => None
    | c :: rest =>
        if (c =? COMMA)%N then
          match read_members (S fuel) (skip_ws rest) with
          | Some (members, rest') => Some ((key, JString text) :: members, rest')
          | None => None
          end
        else if (c =? RBRACE)%N then Some ([(key, JString text)], rest)
        else None
    end.
Proof.
  intros Hplain. remember (S fuel) as fuel1 eqn:Hfuel1.
  cbn [read_members]. change (DQUOTE =? DQUOTE)%N with true. cbv iota.
  rewrite (read_string_plain _ _ Hplain).
  change (skip_ws (lit ": " ++ DQUOTE :: flat_map escape_char text ++ DQUOTE :: tail))
    with (COLON :: SPACE :: DQUOTE :: flat_map escape_char text ++ DQUOTE :: tail).
  cbv iota. change (COLON =? COLON)%N with true. cbv iota.
  change (skip_ws (SPACE :: DQUOTE :: flat_map escape_char text ++ DQUOTE :: tail))
    with (DQUOTE :: flat_map escape_char text ++ DQUOTE :: tail).
  rewrite Hfuel1 at 1. rewrite read_value_string, read_string_dumps.
  reflexivity.
Qed.

Lemma more_pairs (n j : Z) (p : str * str) (conv : Conversation) :
  j + len_list (p :: conv) = n ->
  (j <? n - 1) = match conv with [] => false | _ :: _ => true end.
Proof.
  unfold len_list. intros <-. destruct conv; simpl length.
  - apply Z.ltb_ge. lia.
  - apply Z.ltb_lt. lia.
Qed.

Lemma skip_ws_indent6 (s : str) : skip_ws (NL :: lit "      " ++ s) = skip_ws s.
Proof. reflexivity. Qed.

Lemma skip_ws_indent4 (s : str) : skip_ws (NL :: lit "    " ++ s) = skip_ws s.
Proof. reflexivity. Qed.

Lemma skip_ws_indent2 (s : str) : skip_ws (NL :: lit "  " ++ s) = skip_ws s.
Proof. reflexivity. Qed.

Ltac right_nested :=
  repeat (rewrite <- ?app_assoc; rewrite <- ?app_comm_cons).

Ltac count_goal :=
  repeat (rewrite length_app || rewrite length_cons).

Ltac count_length H :=
  repeat (rewrite length_app in H || rewrite length_cons in H).

(** The members of an object, from the first key to the closing brace. *)
Lemma read_members_pairs (conv : Conversation) :
  forall (key text : str) (n j : Z) (fuel : nat) (rest : str),
    j + len_list ((key, text) :: conv) = n ->
    Forall (fun p => plain (fst p) = true) ((key, text) :: conv) ->
    (2 * length (behind_newlines (pair_lines n j ((key, text) :: conv))
                 ++ NL :: lit "    }" ++ rest) + 2 <= fuel)%nat ->
    read_members fuel
      (skip_ws (behind_newlines (pair_lines n j ((key, text) :: conv))
                ++ NL :: lit "    }" ++ rest))
    = Some (members_of ((key, text) :: conv), rest).
Proof.
  induction conv as [|[key' text'] conv IH];
    intros key text n j fuel rest Hn Hplain Hfuel;
    rewrite pair_lines_cons, behind_newlines_cons in Hfuel |- *;
    rewrite (more_pairs n j _ _ Hn) in Hfuel |- *;
    count_length Hfuel;
    (destruct fuel as [|[|fuel]]; [lia..|]);
    rewrite Forall_cons in Hplain; destruct Hplain as [Hkey Hrest];
    cbn [fst] in Hkey.
  - change (pair_lines n (j + 1) []) with (@nil str).
    change (behind_newlines []) with (@nil char).
    right_nested. rewrite skip_ws_indent6.
    change (skip_ws (DQUOTE :: ?s)) with (DQUOTE :: s).
    rewrite (read_members_step _ _ _ _ Hkey). reflexivity.
  - right_nested. rewrite skip_ws_indent6.
    change (skip_ws (DQUOTE :: ?s)) with (DQUOTE :: s).
    rewrite (read_members_step _ _ _ _ Hkey).
    change (skip_ws (lit "," ++ ?s)) with (COMMA :: s).
    cbv iota. change (COMMA =? COMMA)%N with true. cbv iota.
    rewrite (IH key' text' n (j + 1)); [reflexivity| |exact Hrest|].
    + unfold len_list in *. cbn [length] in *. lia.
    + count_goal. lia.
Qed.


Lemma skip_ws_pairs (n j : Z) (key text : str) (conv : Conversation) (tail : str) :
  exists s, skip_ws (behind_newlines (pair_lines n j ((key, text) :: conv)) ++ tail)
            = DQUOTE :: s.
Proof.
  rewrite pair_lines_cons, behind_newlines_cons. right_nested.
  rewrite skip_ws_indent6. eexists. reflexivity.
Qed.

Lemma read_value_object_eq (fuel : nat) (s : str) :
  read_value (S fuel) (LBRACE :: s)
  = match skip_ws s with
    | [] => None
    | c :: s' =>
        if (c =? RBRACE)%N then Some (JObject [], s')
        else match read_members fuel (c :: s') with
             | Some (members, rest) => Some (JObject members, rest)
             | None => None
             end
    end.
Proof. reflexivity. Qed.

Lemma read_value_array_eq (fuel : nat) (s : str) :
  read_value (S fuel) (LBRACKET :: s)
  = match skip_ws s with
    | [] => None
    | c :: s' =>
        if (c =? RBRACKET)%N then Some (JArray [], s')
        else match read_items fuel (c :: s') with
             | Some (items, rest) => Some (JArray items, rest)
             | None => None
             end
    end.
Proof. reflexivity. Qed.

Lemma read_items_eq (fuel : nat) (s : str) :
  read_items (S fuel) s
  = match read_value fuel s with
    | None => None
    | Some (item, rest) =>
        match skip_ws rest with
        | [] => None
        | c :: rest1 =>
            if (c =? COMMA)%N then
              match read_items fuel (skip_ws rest1) with
              | Some (items, rest2) => Some (item :: items, rest2)
              | None => None
              end
            else if (c =? RBRACKET)%N then Some ([item], rest1)
            else None
        end
    end.
Proof. reflexivity. Qed.

(** One conversation, from its opening brace to its closing brace. *)
Lemma read_value_object (conv : Conversation) (fuel : nat) (tail : str) :
  Forall (fun p => plain (fst p) = true) conv ->
  (2 * length (behind_newlines (pair_lines (len_list conv) 0 conv)
               ++ NL :: lit "    }" ++ tail) + 3 <= fuel)%nat ->
  read_value fuel
    (LBRACE :: behind_newlines (pair_lines (len_list conv) 0 conv)
            ++ NL :: lit "    }" ++ tail)
  = Some (JObject (members_of conv), tail).
Proof.
  intros Hplain Hfuel. destruct fuel as [|fuel]; [lia|].
  rewrite read_value_object_eq.
  destruct conv as [|[key text] conv]; [reflexivity|].
  destruct (skip_ws_pairs (len_list ((key, text) :: conv)) 0 key text conv
              (NL :: lit "    }" ++ tail)) as [s Hs].
  rewrite Hs. cbv iota. change (DQUOTE =? RBRACE)%N with false. cbv iota.
  rewrite <- Hs, read_members_pairs; [reflexivity|lia|exact Hplain|lia].
Qed.

Lemma conversation_lines_cons (n i : Z) (conv : Conversation)
    (conversations : list Conversation) :
  conversation_lines n i (conv :: conversations)
  = lit "    {" :: pair_lines (len_list conv) 0 conv
    ++ (lit "    }" ++ (if i <? n - 1 then lit "," else []))
    :: conversation_lines n (i + 1) conversations.
Proof. cbn [conversation_lines app]. by destruct (i <? n - 1). Qed.

Lemma more_conversations (n i : Z) (conv : Conversation)
    (conversations : list Conversation) :
  i + len_list (conv :: conversations) = n ->
  (i <? n - 1) = match conversations with [] => false | _ :: _ => true end.
Proof.
  unfold len_list. intros <-. destruct conversations; simpl length.
  - apply Z.ltb_ge. lia.
  - apply Z.ltb_lt. lia.
Qed.

(** The items of the array, from the first opening brace to the closing
    bracket. *)
Lemma read_items_conversations (conversations : list Conversation) :
  forall (conv : Conversation) (n i : Z) (fuel : nat) (rest : str),
    i + len_list (conv :: conversations) = n ->
    plain_keys (conv :: conversations) ->
    (2 * length (behind_newlines (conversation_lines n i (conv :: conversations))
                 ++ NL :: lit "  ]" ++ rest) + 2 <= fuel)%nat ->
    read_items fuel
      (skip_ws (behind_newlines (conversation_lines n i (conv :: conversations))
                ++ NL :: lit "  ]" ++ rest))
    = Some (map (fun conv => JObject (members_of conv)) (conv :: conversations),
            rest).
Proof.
  induction conversations as [|conv' conversations IH];
    intros conv n i fuel rest Hn Hplain Hfuel;
    rewrite conversation_lines_cons, behind_newlines_cons,
      behind_newlines_app, behind_newlines_cons in Hfuel |- *;
    rewrite (more_conversations n i _ _ Hn) in Hfuel |- *;
    count_length Hfuel;
    (destruct fuel as [|fuel]; [lia|]);
    unfold plain_keys in Hplain; rewrite Forall_cons in Hplain;
    destruct Hplain as [Hconv Hrest];
    right_nested;
    change (skip_ws (NL :: lit "    {" ++ ?s)) with (LBRACE :: s);
    rewrite read_items_eq, (read_value_object conv fuel _ Hconv).
  - reflexivity.
  - count_goal. lia.
  - change (skip_ws (lit "," ++ ?s)) with (COMMA :: s).
    cbv iota. change (COMMA =? COMMA)%N with true. cbv iota.
    rewrite (IH conv' n (i + 1)); [reflexivity| |exact Hrest|].
    + unfold len_list in *. cbn [length] in *. lia.
    + count_goal. lia.
  - count_goal. lia.
Qed.


Lemma skip_ws_conversations (n i : Z) (conv : Conversation)
    (conversations : list Conversation) (tail : str) :
  exists s,
    skip_ws (behind_newlines (conversation_lines n i (conv :: conversations)) ++ tail)
    = LBRACE :: s.
Proof.
  rewrite conversation_lines_cons, behind_newlines_cons. right_nested.
  eexists. reflexivity.
Qed.

(** A member whose value follows the colon and one blank. *)
Lemma read_members_value (fuel : nat) (key tail : str) :
  plain key = true ->
  read_members (S fuel) (DQUOTE :: key ++ DQUOTE :: lit ": " ++ tail)
  = match read_value fuel (skip_ws tail) with
    | None => None
    | Some (item, rest) =>
        match skip_ws rest with
        | [] => None
        | c :: rest1 =>
            if (c =? COMMA)%N then
              match read_members fuel (skip_ws rest1) with
              | Some (members, rest2) => Some ((key, item) :: members, rest2)
              | None => None
              end
            else if (c =? RBRACE)%N then Some ([(key, item)], rest1)
            else None
        end
    end.
Proof.
  intros Hplain.
  cbn [read_members]. change (DQUOTE =? DQUOTE)%N with true. cbv iota.
  rewrite (read_string_plain _ _ Hplain).
  change (skip_ws (lit ": " ++ tail)) with (COLON :: SPACE :: tail).
  cbv iota. change (COLON =? COLON)%N with true. cbv iota.
  reflexivity.
Qed.

(** The whole document. *)
Lemma read_document (conversations : list Conversation) (fuel : nat) :
  plain_keys conversations ->
  (2 * length (serialize_to_json_with_duplicate_keys conversations) + 1
   <= fuel)%nat ->
  read_value fuel (serialize_to_json_with_duplicate_keys conversations)
  = Some (document_of conversations, []).
Proof.
  intros Hplain Hfuel.
  destruct conversations as [|conv conversations].
  - change (length (serialize_to_json_with_duplicate_keys [])) with 35%nat in Hfuel.
    destruct fuel as [|[|[|fuel]]]; [lia..|]. reflexivity.
  - unfold serialize_to_json_with_duplicate_keys, join in Hfuel |- *.
    cbn [app] in Hfuel |- *.
    change (flat_map (fun q => [NL] ++ q) ?l) with (behind_newlines l)
      in Hfuel |- *.
    rewrite behind_newlines_cons, behind_newlines_app in Hfuel |- *.
    change (behind_newlines [lit "  ]"; lit "}"])
      with (NL :: lit "  ]" ++ NL :: lit "}") in Hfuel |- *.
    count_length Hfuel.
    destruct fuel as [|[|[|fuel]]]; [lia..|].
    right_nested.
    change (lit "{" ++ ?s) with (LBRACE :: s).
    rewrite read_value_object_eq, skip_ws_indent2.
    change (skip_ws (DQUOTE :: ?s)) with (DQUOTE :: s).
    cbv iota. change (DQUOTE =? RBRACE)%N with false. cbv iota.
    change (lit ": [" ++ ?s) with (lit ": " ++ LBRACKET :: s).
    rewrite read_members_value by reflexivity.
    change (skip_ws (LBRACKET :: ?s)) with (LBRACKET :: s).
    rewrite read_value_array_eq.
    destruct (skip_ws_conversations (len_list (conv :: conversations)) 0 conv
                conversations (NL :: lit "  ]" ++ NL :: lit "}")) as [s Hs].
    rewrite Hs. cbv iota. change (LBRACE =? RBRACKET)%N with false. cbv iota.
    rewrite <- Hs, read_items_conversations; [reflexivity|lia|exact Hplain|].
    count_goal. lia.
Qed.

Lemma role_keys_plain (conversations : list Conversation) :
  role_keys conversations -> plain_keys conversations.
Proof.
  intros Hroles. eapply Forall_impl; [exact Hroles|].
  intros conv Hconv. eapply Forall_impl; [exact Hconv|].
  intros p [-> | ->]; reflexivity.
Qed.

Lemma entries_members_of (conv : Conversation) :
  entries (JObject (members_of conv)) = Some conv.
Proof.
  unfold entries, members_of. apply mapM_Some.
  induction conv as [|[key text] conv IH]; constructor; done.
Qed.

Lemma example_conversation_document_of (conversations : list Conversation) :
  example_conversation (document_of conversations) = Some conversations.
Proof.
  unfold example_conversation, document_of.
  rewrite decide_True by done. apply mapM_Some.
  induction conversations as [|conv conversations IH]; constructor;
    [apply entries_members_of|exact IH].
Qed.

End RoundTrip.

(** C8: for conversations whose keys are the two role tokens, a JSON reader
    reads the output of the serializer as one object with the single key
    [example_conversation], bound to an array with one object per
    conversation, whose members, in the order of the text and with repeated
    keys kept, are the (role, text) pairs of that conversation. *)
Theorem serialize_round_trip (conversations : list Conversation) :
  role_keys conversations ->
  loads (serialize_to_json_with_duplicate_keys conversations)
  = Some (document_of conversations)
  /\ (loads (serialize_to_json_with_duplicate_keys conversations)
      ≫= example_conversation) = Some conversations.
Proof.
  intros Hkeys.
  assert (Hloads : loads (serialize_to_json_with_duplicate_keys conversations)
                   = Some (document_of conversations)).
  { unfold loads.
    assert (Hstart : skip_ws (serialize_to_json_with_duplicate_keys conversations)
                     = serialize_to_json_with_duplicate_keys conversations)
      by reflexivity.
    rewrite Hstart, (read_document conversations); [reflexivity| |lia].
    by apply role_keys_plain. }
  split; [exact Hloads|].
  rewrite Hloads. apply example_conversation_document_of.
Qed.

Lemma serialize_round_trip_witness :
  let conversations :=
    [[(USER_ROLE, lit "hi"); (CHAR_ROLE, DQUOTE :: lit "hey" ++ [DQUOTE; NL]);
      (CHAR_ROLE, lit "again")];
     [(CHAR_ROLE, BACKSLASH :: lit "o/"); (USER_ROLE, [7; 233; 128512]%N)]] in
  (loads (serialize_to_json_with_duplicate_keys conversations)
   ≫= example_conversation) = Some conversations.
Proof.
  intros conversations.
  refine (proj2 (serialize_round_trip conversations _)).
  repeat first [apply List.Forall_nil | apply List.Forall_cons
               | left; reflexivity | right; reflexivity].
Defined.

(** ** The Line Parser on concrete lines *)

(** C2 at a header line with a four-digit year: the pattern of the line
    accepts the year, [strptime] with [%y] reads two digits and then wants
    the comma, so the line is not parsed. *)
Theorem parse_whatsapp_line_four_digit_year :
  rmatch line_pattern (lit "12/25/2021, 12:51 PM - Alice: hi") <> None
  /\ strptime (lit "12/25/2021, 12:51 PM") = None
  /\ parse_whatsapp_line (lit "12/25/2021, 12:51 PM - Alice: hi") = None
  /\ parse_whatsapp_line (lit "12/25/21, 12:51 PM - Alice: hi")
     = Some (mk_msg (mk_datetime 2021 12 25 12 51) (lit "Alice") (lit "hi")).
Proof. repeat split; vm_compute; congruence. Qed.

(** C4 as stated fails: a header line with nothing behind the colon and the
    blank is parsed to a message with an empty body, and the Assembler
    keeps it. *)
Lemma parse_whatsapp_line_empty_body :
  ~ (forall line m, parse_whatsapp_line line = Some m -> message m <> [])
  /\ parse_whatsapp_chat [lit "3/1/24, 9:00 AM - Alice: "]
     = [mk_msg (mk_datetime 2024 3 1 9 0) (lit "Alice") []].
Proof.
  split; [|by vm_compute].
  intros H.
  apply (H (lit "3/1/24, 9:00 AM - Alice: ")
           (mk_msg (mk_datetime 2024 3 1 9 0) (lit "Alice") [])); by vm_compute.
Qed.

Lemma group_by_time_gap_bodies_witness :
  let m := mk_msg (mk_datetime 2024 3 1 9 0) (lit "Alice") (lit "hi") in
  message m <> [] /\ strip (message m) <> [].
Proof.
  intros m.
  apply (group_by_time_gap_bodies
           [mk_msg (mk_datetime 2024 3 1 8 0) (lit "Bob") [];
            mk_msg (mk_datetime 2024 3 1 9 0) (lit "Alice") (lit "hi")]
           15 true true None None [m] m).
  - assert (H : group_by_time_gap
                  [mk_msg (mk_datetime 2024 3 1 8 0) (lit "Bob") [];
                   mk_msg (mk_datetime 2024 3 1 9 0) (lit "Alice") (lit "hi")]
                  15 true true None None = [[m]]) by (vm_compute; reflexivity).
    rewrite H. apply list_elem_of_here.
  - apply list_elem_of_here.
Defined.

Lemma convert_to_json_format_roles_witness :
  let conv := [(USER_ROLE, lit "hi"); (CHAR_ROLE, lit "hey")] in
  conv <> []
  /\ (exists text, (USER_ROLE, text) ∈ conv)
  /\ (exists text, (CHAR_ROLE, text) ∈ conv).
Proof.
  intros conv.
  pose (blocks := [[mk_msg (mk_datetime 2024 3 1 9 0) (lit "Alice") (lit "hi");
                    mk_msg (mk_datetime 2024 3 1 9 1) (lit "Carol") (lit "yo");
                    mk_msg (mk_datetime 2024 3 1 9 2) (lit "Bob") (lit "hey")];
                   [mk_msg (mk_datetime 2024 3 1 9 20) (lit "Alice") (lit "bye")]]).
  assert (Hin : conv ∈ convert_to_json_format blocks (lit "Alice") (lit "Bob")).
  { assert (H : convert_to_json_format blocks (lit "Alice") (lit "Bob") = [conv])
      by (vm_compute; reflexivity).
    rewrite H. apply list_elem_of_here. }
  destruct (convert_to_json_format_roles blocks (lit "Alice") (lit "Bob") conv Hin)
    as (Hne & Hu & Hc & _).
  auto.
Defined.

(** * Further properties *)

(** ** The Transcript Assembler *)

Lemma parse_whatsapp_chat_finish (lines : list str) :
  parse_whatsapp_chat lines = finish (assemble lines).
Proof.
  unfold parse_whatsapp_chat, finish, assemble.
  by destruct (fold_left assemble_step lines ([], None)) as [messages [cur|]].
Qed.

Lemma assemble_snoc (lines : list str) (line : str) :
  assemble (lines ++ [line]) = assemble_step (assemble lines) line.
Proof. unfold assemble. by rewrite fold_left_app. Qed.

(** On a header the accumulator is flushed and replaced. *)
Lemma finish_step_header (st : list Msg * option Msg) (line : str) (h : Msg) :
  header_of line = Some h ->
  finish (assemble_step st line) = finish st ++ [h].
Proof.
  unfold header_of. intros Hh. destruct st as [messages cur].
  unfold assemble_step. rewrite Hh. unfold finish. cbn [fst snd].
  by destruct cur.
Qed.

(** On another line the accumulator, if there is one, grows by a blank and
    the stripped line, unless the line is blank. *)
Lemma finish_step_other (st : list Msg * option Msg) (line : str) :
  header_of line = None ->
  finish (assemble_step st line)
  = match snd st, strip (rstrip_char NL line) with
    | Some cur, _ :: _ =>
        fst st ++ [set_message cur (message cur ++ [SPACE]
                                    ++ strip (rstrip_char NL line))]
    | _, _ => finish st
    end.
Proof.
  unfold header_of. intros Hh. destruct st as [messages cur].
  unfold assemble_step. rewrite Hh. unfold finish. cbn [fst snd].
  destruct cur as [cur|]; [|done].
  by destruct (strip (rstrip_char NL line)).
Qed.

(** Messages are only stored once an accumulator exists. *)
Lemma assemble_no_current (lines : list str) :
  snd (assemble lines) = None -> fst (assemble lines) = [].
Proof.
  induction lines as [|line lines IH] using rev_ind; [done|].
  rewrite assemble_snoc. destruct (assemble lines) as [messages cur].
  unfold assemble_step. cbn [fst snd] in *.
  destruct (parse_whatsapp_line _); [done|].
  destruct cur as [cur|]; [|exact IH].
  by destruct (strip _).
Qed.

Lemma grown_from_refl (h : Msg) : grown_from h h.
Proof. repeat split. exists []. by rewrite app_nil_r. Qed.

Lemma parse_whatsapp_chat_grown (lines : list str) :
  Forall2 grown_from (parse_whatsapp_chat lines) (omap header_of lines).
Proof.
  rewrite parse_whatsapp_chat_finish.
  induction lines as [|line lines IH] using rev_ind; [constructor|].
  rewrite assemble_snoc, omap_app. cbn [omap list_omap].
  destruct (header_of line) as [h|] eqn:Hh.
  - rewrite (finish_step_header _ _ _ Hh).
    apply Forall2_app; [exact IH|]. repeat constructor. apply grown_from_refl.
  - rewrite (finish_step_other _ _ Hh), app_nil_r.
    destruct (assemble lines) as [messages [cur|]]; cbn [fst snd] in *;
      [|exact IH].
    destruct (strip (rstrip_char NL line)) as [|c rest] eqn:Hstrip; [exact IH|].
    unfold finish in IH. cbn [fst snd] in IH.
    apply Forall2_app_inv_l in IH as (hs1 & hs2 & H1 & H2 & ->).
    apply Forall2_app; [exact H1|].
    inversion H2 as [|? h ? hs Hcur Hnil]; subst.
    inversion Hnil; subst. constructor; [|constructor].
    destruct Hcur as (Ht & Hu & tail & Hm).
    repeat split; [exact Ht|exact Hu|].
    exists (tail ++ [SPACE] ++ c :: rest). cbn [message set_message].
    by rewrite Hm, <- app_assoc.
Qed.

(** X1: the messages of [parse_whatsapp_chat] are, one for one and in order,
    the header lines of the input: each message has the time stamp and the
    speaker of its header and a body that starts with the header's text. In
    particular there are as many messages as header lines. *)
Theorem parse_whatsapp_chat_headers (lines : list str) :
  Forall2 grown_from (parse_whatsapp_chat lines) (omap header_of lines)
  /\ length (parse_whatsapp_chat lines) = length (omap header_of lines).
Proof.
  pose proof (parse_whatsapp_chat_grown lines) as H.
  split; [exact H|]. by eapply Forall2_length.
Qed.

Lemma assemble_no_header (lines : list str) :
  Forall (fun line => header_of line = None) lines ->
  assemble lines = ([], None).
Proof.
  induction lines as [|line lines IH] using rev_ind; [done|].
  rewrite Forall_app, Forall_singleton. intros [Hlines Hline].
  rewrite assemble_snoc, (IH Hlines). unfold assemble_step.
  unfold header_of in Hline. by rewrite Hline.
Qed.

(** X2: the lines before the first header line are dropped. *)
Theorem parse_whatsapp_chat_leading_lines (before lines : list str) :
  Forall (fun line => header_of line = None) before ->
  parse_whatsapp_chat (before ++ lines) = parse_whatsapp_chat lines.
Proof.
  intros Hbefore. unfold parse_whatsapp_chat.
  rewrite fold_left_app.
  by rewrite (assemble_no_header before Hbefore : fold_left _ _ _ = _).
Qed.

Lemma parse_whatsapp_chat_leading_lines_witness :
  parse_whatsapp_chat [lit "Messages are end-to-end encrypted."; lit "";
                       lit "3/1/24, 9:00 AM - Alice: hi"]
  = parse_whatsapp_chat [lit "3/1/24, 9:00 AM - Alice: hi"].
Proof.
  apply (parse_whatsapp_chat_leading_lines
           [lit "Messages are end-to-end encrypted."; lit ""]).
  repeat constructor.
Defined.

(** X3: a line that is not a header never starts a message. When it is blank
    the messages stay as they are; otherwise a blank and the stripped line
    are appended to the body of the last message. *)
Theorem parse_whatsapp_chat_continuation
    (lines : list str) (line : str) (init : list Msg) (m : Msg) :
  header_of line = None ->
  parse_whatsapp_chat lines = init ++ [m] ->
  parse_whatsapp_chat (lines ++ [line])
  = match strip (rstrip_char NL line) with
    | [] => init ++ [m]
    | c :: text =>
        init ++ [set_message m (message m ++ [SPACE] ++ c :: text)]
    end.
Proof.
  intros Hline. rewrite !parse_whatsapp_chat_finish, assemble_snoc.
  rewrite (finish_step_other _ _ Hline).
  pose proof (assemble_no_current lines) as Hnone.
  destruct (assemble lines) as [messages [cur|]]; unfold finish; cbn [fst snd] in *.
  - intros Hlast. apply app_inj_tail in Hlast as [-> ->].
    by destruct (strip (rstrip_char NL line)).
  - rewrite (Hnone eq_refl). intros Hlast. by destruct init.
Qed.

Lemma parse_whatsapp_chat_continuation_witness :
  parse_whatsapp_chat [lit "3/1/24, 9:00 AM - Alice: hi"; lit "  there  "]
  = [mk_msg (mk_datetime 2024 3 1 9 0) (lit "Alice") (lit "hi there")].
Proof.
  apply (parse_whatsapp_chat_continuation
           [lit "3/1/24, 9:00 AM - Alice: hi"] (lit "  there  ") []
           (mk_msg (mk_datetime 2024 3 1 9 0) (lit "Alice") (lit "hi")));
    reflexivity.
Defined.

(** ** The Line Parser *)

Lemma head_lstrip (s : str) (c : char) :
  head (lstrip s) = Some c -> isspace c = false.
Proof.
  induction s as [|x s IH]; [done|]. simpl.
  destruct (isspace x) eqn:Hx; [exact IH|]. simpl. by intros [= <-].
Qed.

Lemma last_rev (s : str) : last (rev s) = head s.
Proof. destruct s as [|x s]; [done|]. simpl. by rewrite last_snoc. Qed.

Lemma head_rev (s : str) : head (rev s) = last s.
Proof. by rewrite <- (rev_involutive s) at 2; rewrite last_rev. Qed.

(** Stripping on the left drops a prefix: the last character stays. *)
Lemma lstrip_snoc (s : str) (c : char) :
  isspace c = false -> exists u, lstrip (s ++ [c]) = u ++ [c].
Proof.
  intros Hc. induction s as [|x s IH]; simpl.
  - rewrite Hc. by exists [].
  - destruct (isspace x); [exact IH|]. by exists (x :: s).
Qed.

Lemma strip_trimmed (s : str) : trimmed (strip s).
Proof.
  unfold strip, rstrip. intros c [Hhead|Hlast].
  - rewrite head_rev in Hhead.
    destruct (lstrip s) as [|x t] eqn:Hs; [done|].
    assert (Hx : isspace x = false) by (apply (head_lstrip s); by rewrite Hs).
    cbn [rev] in Hhead. destruct (lstrip_snoc (rev t) x Hx) as [u Hu].
    rewrite Hu, last_snoc in Hhead. by injection Hhead as <-.
  - rewrite last_rev in Hlast. by eapply head_lstrip.
Qed.

Lemma make_datetime_valid (y m d h mi : Z) (t : datetime) :
  make_datetime y m d h mi = Some t -> valid_datetime t.
Proof.
  unfold make_datetime. destruct (_ && _) eqn:Hok; [|done].
  intros [= <-]. unfold valid_datetime. cbn [year month day hour minute].
  repeat (apply andb_true_iff in Hok; destruct Hok as [Hok ?]).
  repeat match goal with H : (_ <=? _) = true |- _ => apply Z.leb_le in H end.
  lia.
Qed.

Lemma strptime_valid (data_string : str) (t : datetime) :
  strptime data_string = Some t -> valid_datetime t.
Proof.
  unfold strptime.
  destruct (rmatch format_regex data_string) as [[[|] found]|]; [|done..].
  destruct (int (group found 3)); [|done].
  destruct (int (group found 1)); [|done].
  destruct (int (group found 2)); [|done].
  destruct (int (group found 4)); [|done].
  destruct (int (group found 5)); [|done].
  apply make_datetime_valid.
Qed.

Lemma parse_whatsapp_line_some (line : str) (m : Msg) :
  parse_whatsapp_line line = Some m ->
  valid_datetime (timestamp m) /\ trimmed (username m) /\ trimmed (message m).
Proof.
  unfold parse_whatsapp_line.
  destruct (rmatch line_pattern line) as [[rest groups]|]; [|done].
  destruct (strptime (group groups 1)) as [t|] eqn:Ht; [|done].
  intros [= <-]. cbn [timestamp username message].
  split; [by eapply strptime_valid|]. split; apply strip_trimmed.
Qed.

(** X4: whatever the line, a message the Line Parser returns has a time
    stamp that is a date of the calendar with a time of the day, and a
    speaker and a body without white space at either end. *)
Theorem parse_whatsapp_line_fields (line : str) (m : Msg) :
  parse_whatsapp_line line = Some m ->
  valid_datetime (timestamp m) /\ trimmed (username m) /\ trimmed (message m).
Proof. apply parse_whatsapp_line_some. Qed.

Lemma parse_whatsapp_line_fields_witness :
  trimmed (lit "Alice B") /\ trimmed (lit "hi  you").
Proof.
  refine (proj2 (parse_whatsapp_line_fields
                   (lit "3/1/24, 9:00 AM -  Alice B :   hi  you  ")
                   (mk_msg (mk_datetime 2024 3 1 9 0) (lit "Alice B")
                           (lit "hi  you")) _)).
  reflexivity.
Defined.

(** ** Link detection *)

Lemma exec_repeat {A} (w : str) (lo : nat) (hi : option nat) (r1 : regex)
    (s : str) (caps : captures) (k : str -> captures -> option A) :
  exec w (Repeat lo hi r1) s caps k
  = rounds w lo r1 k (match hi with Some h => h | None => length s end) O s caps.
Proof. reflexivity. Qed.

(** A literal text matches when the subject starts with it. *)
Lemma exec_text {A} (l : list ascii) (w s : str) (caps : captures)
    (k : str -> captures -> option A) :
  exec w (text l) s caps k
  = if startswith (map N_of_ascii l) s then k (drop (length l) s) caps else None.
Proof.
  revert s. induction l as [|a l IH]; intros s; [reflexivity|].
  destruct l as [|b l].
  - destruct s as [|c s]; [reflexivity|]. cbn.
    rewrite (N.eqb_sym c). destruct (N_of_ascii a =? c)%N; [|reflexivity].
    by rewrite drop_0.
  - change (text (a :: b :: l)) with (Cat (chr a) (text (b :: l))).
    destruct s as [|c s]; [reflexivity|].
    cbn [exec chr]. rewrite IH. cbn [map startswith length drop].
    rewrite (N.eqb_sym c). by destruct (N_of_ascii a =? c)%N.
Qed.

(** Once the lower bound is reached, rounds that are followed by a
    continuation that always succeeds succeed. *)
Lemma rounds_succeed {A} (w : str) (lo : nat) (r1 : regex)
    (k : str -> captures -> option A) (budget done : nat) (s : str)
    (caps : captures) :
  (forall s' caps', matched (k s' caps') = true) -> (lo <= done)%nat ->
  matched (rounds w lo r1 k budget done s caps) = true.
Proof.
  intros Hk Hlo. apply Nat.leb_le in Hlo.
  destruct budget as [|budget]; cbn; rewrite Hlo; [apply Hk|].
  destruct (exec w r1 s caps _); [done|apply Hk].
Qed.

(** The repeated group of the URL pattern: one URL character is enough, and
    the percent alternative adds nothing, the percent sign being in the
    range from the dollar sign to the underscore. *)
Lemma exec_url_group (w s : str) (caps : captures) :
  matched (exec w url_group s caps (fun s' caps' => Some (s', caps')))
  = starts_url s.
Proof.
  unfold url_group, plus. rewrite exec_repeat.
  destruct s as [|c s]; [reflexivity|].
  cbn [length rounds starts_url Nat.leb alt].
  set (k := fun s' caps' => rounds w 1 _ _ (length s) 1 s' caps').
  assert (Hk : forall s' caps', matched (k s' caps') = true).
  { intros. unfold k. by apply rounds_succeed. }
  assert (Hhit : forall rest : option (str * captures),
             matched (match k s caps with Some x => Some x | None => rest end)
             = true).
  { intros rest. pose proof (Hk s caps) as H. by destruct (k s caps). }
  assert (Hpass : forall o : option (str * captures),
             matched (match o with Some x => Some x | None => None end)
             = matched o) by (by intros []).
  rewrite Hpass. cbn [exec]. unfold url_char.
  destruct (range "a" "z" c || range "A" "Z" c); [apply Hhit|].
  destruct (range "0" "9" c); [apply Hhit|].
  destruct (range "$" "_" c || one_of "@.&+" c) eqn:Hc.
  { apply orb_true_iff in Hc as [-> | ->]; rewrite ?orb_true_r; apply Hhit. }
  apply orb_false_iff in Hc as [Hrange Hone]. rewrite Hrange, Hone.
  destruct (one_of "!*\()," c); [apply Hhit|]. cbn [orb seq chr].
  destruct (N.eqb_spec c (N_of_ascii "%")) as [->|Hpct]; [done|].
  cbn [exec chr]. apply N.eqb_neq in Hpct. by rewrite Hpct.
Qed.

Lemma exec_cat {A} (w : str) (r1 r2 : regex) (s : str) (caps : captures)
    (k : str -> captures -> option A) :
  exec w (Cat r1 r2) s caps k
  = exec w r1 s caps (fun s' caps' => exec w r2 s' caps' k).
Proof. reflexivity. Qed.

Lemma startswith_app (p q s : str) :
  startswith (p ++ q) s = startswith p s && startswith q (drop (length p) s).
Proof.
  revert s. induction p as [|a p IH]; intros s; [by rewrite drop_0|].
  destruct s as [|b s]; [done|]. cbn. rewrite IH. apply andb_assoc.
Qed.

Lemma matched_orelse {A} (o o' : option A) :
  matched (match o with Some x => Some x | None => o' end)
  = matched o || matched o'.
Proof. by destruct o. Qed.

(** The pattern behind the optional [s]. *)
Lemma exec_url_tail (w t : str) (caps : captures) :
  matched (exec w (Cat (str_re "://") url_group) t caps
                (fun s' caps' => Some (s', caps')))
  = startswith (lit "://") t && starts_url (drop 3 t).
Proof.
  unfold str_re. rewrite exec_cat, exec_text.
  change (map N_of_ascii (list_ascii_of_string "://")) with (lit "://").
  destruct (startswith (lit "://") t); [|reflexivity].
  apply exec_url_group.
Qed.

(** The URL pattern matches at a position exactly when a link starts there. *)
Lemma exec_url_pattern (w s : str) :
  matched (exec w url_pattern s [] (fun s' caps' => Some (s', caps')))
  = link_here s.
Proof.
  change url_pattern
    with (Cat (str_re "http")
              (Cat (opt (Class (one_of "s"))) (Cat (str_re "://") url_group))).
  unfold str_re at 1. unfold opt. rewrite exec_cat, exec_text. unfold link_here.
  change (lit "http://") with (lit "http" ++ lit "://").
  change (lit "https://") with (lit "http" ++ ([N_of_ascii "s"] ++ lit "://")).
  rewrite !startswith_app.
  change (map N_of_ascii (list_ascii_of_string "http")) with (lit "http").
  destruct (startswith (lit "http") s); [|reflexivity].
  cbn [andb length lit map list_ascii_of_string].
  replace (drop 7 s) with (drop 3 (drop 4 s)) by (by rewrite drop_drop).
  replace (drop 8 s) with (drop 3 (drop 1 (drop 4 s)))
    by (by rewrite !drop_drop).
  generalize (drop 4 s). clear s. intros t.
  rewrite exec_cat, exec_repeat. cbn [rounds Nat.leb].
  rewrite matched_orelse, exec_url_tail, orb_comm. f_equal.
  destruct t as [|c t]; [reflexivity|].
  cbn [exec startswith drop]. unfold one_of.
  cbn [lit map list_ascii_of_string existsb].
  rewrite orb_false_r, andb_true_r, (N.eqb_sym (N_of_ascii "s")).
  destruct (c =? N_of_ascii "s")%N; [|reflexivity].
  cbn [andb]. rewrite drop_0. apply exec_url_tail.
Qed.

Lemma search_from_url (w s : str) :
  matched (search_from url_pattern w s) = has_link s.
Proof.
  induction s as [|c s IH]; cbn [search_from has_link].
  - rewrite <- (exec_url_pattern w []). by destruct (exec w url_pattern [] [] _).
  - rewrite <- (exec_url_pattern w (c :: s)), <- IH.
    by destruct (exec w url_pattern (c :: s) [] _).
Qed.

(** X5: [contains_link] holds exactly for the messages in which, somewhere,
    [http://] or [https://] is followed by a letter, a digit, a character
    from the dollar sign to the underscore in ASCII order, or one of
    [@.&+!*\(),]. *)
Theorem contains_link_spec (message : str) :
  contains_link message = has_link message.
Proof.
  unfold contains_link, search. rewrite <- (search_from_url message message).
  by destruct (search_from url_pattern message message).
Qed.

(** ** The Sanitizer and the Segmenter, together *)

(** A kept message goes to the end of the blocks. *)
Lemma concat_flush_segment_step (split_minutes : Z)
    (st : list (list Msg) * list Msg) (m : Msg) :
  concat (flush (segment_step split_minutes st m)) = concat (flush st) ++ [m].
Proof.
  destruct st as [blocks cur]. unfold segment_step.
  assert (Hflush : concat (flush (blocks, cur)) = concat blocks ++ cur).
  { unfold flush. cbn [fst snd]. destruct cur; [by rewrite app_nil_r|].
    rewrite concat_app. cbn [concat]. by rewrite app_nil_r. }
  assert (Hsnoc : forall bs : list (list Msg),
             concat (flush (bs, cur ++ [m])) = concat bs ++ cur ++ [m]).
  { intros bs. unfold flush. cbn [fst snd].
    destruct (cur ++ [m]) eqn:Hcur; [by destruct cur|].
    rewrite concat_app. cbn [concat]. by rewrite app_nil_r. }
  rewrite Hflush. destruct (last cur) as [prev|].
  - destruct (_ >? _).
    + unfold flush. cbn [fst snd]. rewrite !concat_app. cbn [concat].
      by rewrite !app_nil_r.
    + by rewrite Hsnoc, app_assoc.
  - by rewrite Hsnoc, app_assoc.
Qed.

Lemma concat_group_by_time_gap
    (messages : list Msg) (split_minutes : Z) (filter_media filter_links : bool)
    (media_replacement link_replacement : option str) :
  concat (group_by_time_gap messages split_minutes filter_media filter_links
                            media_replacement link_replacement)
  = omap (sanitize filter_media filter_links media_replacement link_replacement)
         messages.
Proof.
  set (step := loop_step split_minutes filter_media filter_links
                         media_replacement link_replacement).
  assert (Hfold : forall msgs st,
    concat (flush (fold_left step msgs st))
    = concat (flush st)
      ++ omap (sanitize filter_media filter_links media_replacement
                        link_replacement) msgs).
  { induction msgs as [|m msgs IH]; intros st; cbn [fold_left omap list_omap].
    - by rewrite app_nil_r.
    - rewrite IH. unfold step, loop_step.
      destruct (sanitize _ _ _ _ m) as [m'|]; [|done].
      by rewrite concat_flush_segment_step, <- app_assoc. }
  unfold group_by_time_gap. destruct messages as [|m messages]; [done|].
  fold step. by rewrite Hfold.
Qed.

(** X6: the blocks of [group_by_time_gap], one after the other, are the
    messages the sanitizing steps keep, in the order of the input: grouping
    neither loses, repeats nor reorders a kept message. *)
Theorem group_by_time_gap_partition
    (messages : list Msg) (split_minutes : Z) (filter_media filter_links : bool)
    (media_replacement link_replacement : option str) :
  concat (group_by_time_gap messages split_minutes filter_media filter_links
                            media_replacement link_replacement)
  = omap (sanitize filter_media filter_links media_replacement link_replacement)
         messages.
Proof. apply concat_group_by_time_gap. Qed.

Lemma handle_media_keeps (filter_media : bool) (media_replacement : option str)
    (msg kept : Msg) :
  handle_media filter_media media_replacement msg = Some kept ->
  timestamp kept = timestamp msg /\ username kept = username msg.
Proof.
  unfold handle_media. destruct (contains _ _); [|by intros [= <-]].
  destruct filter_media; [done|].
  destruct media_replacement as [[|c r]|]; by intros [= <-].
Qed.

Lemma handle_links_keeps (filter_links : bool) (link_replacement : option str)
    (msg kept : Msg) :
  handle_links filter_links link_replacement msg = Some kept ->
  timestamp kept = timestamp msg /\ username kept = username msg.
Proof.
  unfold handle_links. destruct (contains_link _); [|by intros [= <-]].
  destruct filter_links; [done|].
  destruct link_replacement as [[|c r]|]; by intros [= <-].
Qed.

Lemma replace_char_absent (x y : char) (s : str) :
  x <> y -> x ∉ replace_char x y s.
Proof.
  intros Hxy. unfold replace_char. rewrite list_elem_of_fmap.
  intros [c [Hx _]]. destruct (N.eqb_spec c x); congruence.
Qed.

Lemma replace_char_keeps_absent (x y z : char) (s : str) :
  z <> y -> z ∉ s -> z ∉ replace_char x y s.
Proof.
  intros Hzy Hz. unfold replace_char. rewrite list_elem_of_fmap.
  intros [c [Hc Hin]]. destruct (N.eqb_spec c x); [congruence|]. by subst.
Qed.

Lemma sanitize_keeps (filter_media filter_links : bool)
    (media_replacement link_replacement : option str) (msg kept : Msg) :
  sanitize filter_media filter_links media_replacement link_replacement msg
  = Some kept ->
  timestamp kept = timestamp msg /\ username kept = username msg
  /\ (NL ∉ message kept) /\ (CR ∉ message kept).
Proof.
  unfold sanitize.
  destruct (handle_media _ _ msg) as [m1|] eqn:H1; [|done].
  destruct (handle_links _ _ m1) as [m2|] eqn:H2; [|done].
  unfold skip_empty. destruct (strip (message m2)); [done|].
  intros [= <-].
  apply handle_media_keeps in H1 as [Ht1 Hu1].
  apply handle_links_keeps in H2 as [Ht2 Hu2].
  unfold remove_newlines. cbn [timestamp username message set_message].
  repeat split; [congruence|congruence| |].
  - apply replace_char_keeps_absent; [done|]. by apply replace_char_absent.
  - by apply replace_char_absent.
Qed.

(** X7: every message of every block comes from a message of the input with
    the same time stamp and speaker, and its body is a single line: it holds
    neither a newline nor a carriage return. *)
Theorem group_by_time_gap_messages
    (messages : list Msg) (split_minutes : Z) (filter_media filter_links : bool)
    (media_replacement link_replacement : option str) (block : list Msg) (m : Msg) :
  block ∈ group_by_time_gap messages split_minutes filter_media filter_links
                            media_replacement link_replacement ->
  m ∈ block ->
  (exists m0, m0 ∈ messages /\ timestamp m = timestamp m0
              /\ username m = username m0)
  /\ (NL ∉ message m) /\ (CR ∉ message m).
Proof.
  intros Hblock Hm.
  assert (Hin : In m (concat (group_by_time_gap messages split_minutes
                     filter_media filter_links media_replacement
                     link_replacement))).
  { apply in_concat. exists block. by rewrite <- !list_elem_of_In. }
  rewrite concat_group_by_time_gap in Hin.
  apply list_elem_of_In, list_elem_of_omap in Hin as [m0 [Hm0 Hkept]].
  apply sanitize_keeps in Hkept as (Ht & Hu & Hnl & Hcr).
  split; [by exists m0|done].
Qed.

Lemma group_by_time_gap_messages_witness :
  let m := mk_msg (mk_datetime 2024 3 1 9 0) (lit "Alice") (lit "a b") in
  (NL ∉ message m) /\ (CR ∉ message m).
Proof.
  intros m.
  refine (proj2 (group_by_time_gap_messages
                   [mk_msg (mk_datetime 2024 3 1 9 0) (lit "Alice")
                           (lit "a" ++ [NL] ++ lit "b")]
                   15 true true None None [m] m _ _)).
  - assert (H : group_by_time_gap
                  [mk_msg (mk_datetime 2024 3 1 9 0) (lit "Alice")
                          (lit "a" ++ [NL] ++ lit "b")]
                  15 true true None None = [[m]]) by (vm_compute; reflexivity).
    rewrite H. apply list_elem_of_here.
  - apply list_elem_of_here.
Defined.

(** ** The Block Filter *)

(** A set has two elements or more when it has two different elements. *)
Lemma size_two (X : gset str) :
  (2 <= size X)%nat <-> exists x y, x ∈ X /\ y ∈ X /\ x <> y.
Proof.
  split.
  - intros Hsize.
    destruct (size_pos_elem_of X) as [x Hx]; [lia|].
    destruct (size_pos_elem_of (X ∖ {[x]})) as [y Hy].
    { rewrite size_difference, size_singleton; [lia|].
      by apply singleton_subseteq_l. }
    apply elem_of_difference in Hy as [Hy Hne].
    exists x, y. repeat split; [done..|].
    intros ->. apply Hne. by apply elem_of_singleton.
  - intros (x & y & Hx & Hy & Hne).
    assert (Hsub : {[x]} ∪ {[y]} ⊆ X).
    { apply union_subseteq. split; by apply singleton_subseteq_l. }
    apply subseteq_size in Hsub.
    rewrite size_union, !size_singleton in Hsub; [done|].
    by apply disjoint_singleton_l, not_elem_of_singleton.
Qed.

Lemma speakers_two (block : list Msg) :
  (2 <=? Z.of_nat (size (list_to_set (map username block) : gset str))) = true
  <-> two_speakers block.
Proof.
  rewrite Z.leb_le. unfold two_speakers. split.
  - intros Hsize.
    destruct (proj1 (size_two (list_to_set (map username block))))
      as (x & y & Hx & Hy & Hne); [lia|].
    apply elem_of_list_to_set, list_elem_of_fmap in Hx as [m1 [-> H1]].
    apply elem_of_list_to_set, list_elem_of_fmap in Hy as [m2 [-> H2]].
    by exists m1, m2.
  - intros (m1 & m2 & H1 & H2 & Hne).
    assert (Hsize : (2 <= size (list_to_set (map username block) : gset str))%nat).
    { apply size_two. exists (username m1), (username m2).
      repeat split; [| |done];
        apply elem_of_list_to_set, list_elem_of_fmap; eauto. }
    lia.
Qed.

Lemma two_speakers_length (block : list Msg) :
  two_speakers block -> 2 <= len_list block.
Proof.
  intros (m1 & m2 & H1 & H2 & Hne). unfold len_list.
  destruct block as [|a [|b block]]; [|exfalso|simpl length; lia].
  - by apply elem_of_nil in H1.
  - apply list_elem_of_singleton in H1, H2. congruence.
Qed.

(** X8: the Block Filter keeps exactly the blocks in which two messages have
    different speakers and that have [min_messages] messages or more, in
    the order of the input. *)
Theorem filter_single_speaker_blocks_spec
    (blocks : list (list Msg)) (min_messages : Z) (block : list Msg) :
  (block ∈ filter_single_speaker_blocks blocks min_messages
   <-> block ∈ blocks /\ two_speakers block /\ min_messages <= len_list block)
  /\ filter_single_speaker_blocks blocks min_messages `sublist_of` blocks.
Proof.
  split.
  - unfold filter_single_speaker_blocks.
    rewrite !list_elem_of_In, filter_In, andb_true_iff, speakers_two, Z.leb_le.
    tauto.
  - unfold filter_single_speaker_blocks.
    induction blocks as [|b blocks IH]; [constructor|]. cbn [List.filter].
    destruct (_ && _); by constructor.
Qed.

(** X9: two speakers need two messages, so a [min_messages] of two or less
    asks for nothing more than the two speakers. *)
Theorem filter_single_speaker_blocks_small_minimum
    (blocks : list (list Msg)) (min_messages : Z) :
  min_messages <= 2 ->
  filter_single_speaker_blocks blocks min_messages
  = filter_single_speaker_blocks blocks 2.
Proof.
  intros Hmin. unfold filter_single_speaker_blocks.
  apply filter_ext_in. intros block _.
  destruct (2 <=? Z.of_nat (size _)) eqn:Htwo; [|done].
  apply speakers_two, two_speakers_length in Htwo. cbn [andb].
  transitivity true; [|symmetry]; apply Z.leb_le; lia.
Qed.

Lemma filter_single_speaker_blocks_small_minimum_witness :
  filter_single_speaker_blocks
    [[mk_msg (mk_datetime 2024 3 1 9 0) (lit "Alice") (lit "hi");
      mk_msg (mk_datetime 2024 3 1 9 1) (lit "Bob") (lit "hey")];
     [mk_msg (mk_datetime 2024 3 1 9 30) (lit "Alice") (lit "bye")]] (-5)
  = [[mk_msg (mk_datetime 2024 3 1 9 0) (lit "Alice") (lit "hi");
      mk_msg (mk_datetime 2024 3 1 9 1) (lit "Bob") (lit "hey")]].
Proof.
  rewrite filter_single_speaker_blocks_small_minimum by lia.
  vm_compute. reflexivity.
Defined.

(** ** The Role Mapper *)

Lemma convert_to_json_format_split (blocks1 blocks2 : list (list Msg))
    (user_name char_name : str) :
  convert_to_json_format (blocks1 ++ blocks2) user_name char_name
  = convert_to_json_format blocks1 user_name char_name
    ++ convert_to_json_format blocks2 user_name char_name.
Proof. by rewrite !convert_to_json_format_eq, List.filter_app, map_app. Qed.

(** X10: the Role Mapper treats every block on its own: mapping a list of
    blocks is mapping its parts and putting the results together, and the
    output has at most one conversation per block. *)
Theorem convert_to_json_format_app (blocks1 blocks2 : list (list Msg))
    (user_name char_name : str) :
  convert_to_json_format (blocks1 ++ blocks2) user_name char_name
  = convert_to_json_format blocks1 user_name char_name
    ++ convert_to_json_format blocks2 user_name char_name
  /\ (length (convert_to_json_format blocks1 user_name char_name)
      <= length blocks1)%nat.
Proof.
  split; [apply convert_to_json_format_split|].
  rewrite convert_to_json_format_eq, length_map. apply List.filter_length_le.
Qed.

Lemma roles_differ : USER_ROLE <> CHAR_ROLE.
Proof. discriminate. Qed.

Lemma filter_all {X} (f : X -> bool) (l : list X) :
  Forall (fun x => f x = true) l -> List.filter f l = l.
Proof.
  induction 1 as [|x l Hx _ IH]; [done|]. cbn [List.filter].
  by rewrite Hx, IH.
Qed.

(** X11: a block in which only the two configured speakers talk, and both
    do, is kept whole: its conversation has one pair per message, in order,
    with the body of the message as text. *)
Theorem convert_to_json_format_two_party
    (before after : list (list Msg)) (block : list Msg)
    (user_name char_name : str) :
  user_name <> char_name ->
  Forall (fun m => username m = user_name \/ username m = char_name) block ->
  (exists m, m ∈ block /\ username m = user_name) ->
  (exists m, m ∈ block /\ username m = char_name) ->
  convert_to_json_format (before ++ [block] ++ after) user_name char_name
  = convert_to_json_format before user_name char_name
    ++ [map (role_pair user_name) block]
    ++ convert_to_json_format after user_name char_name.
Proof.
  intros Hnames Hknown [mu [Hmu Hu]] [mc [Hmc Hc]].
  rewrite !convert_to_json_format_split. f_equal. f_equal.
  rewrite convert_to_json_format_eq.
  assert (Hmapped : mapped user_name char_name block
                    = map (role_pair user_name) block).
  { unfold mapped. f_equal. apply filter_all.
    eapply Forall_impl; [exact Hknown|]. intros m [Hm|Hm]; unfold known_speaker.
    - by rewrite (bool_decide_eq_true_2 _ Hm).
    - rewrite (bool_decide_eq_true_2 _ Hm). apply orb_true_r. }
  assert (Hkept : kept user_name char_name block = true).
  { unfold kept. rewrite Hmapped. apply andb_true_iff. split.
    - apply Z.leb_le.
      assert (Hsize : (2 <= size (roles_of (map (role_pair user_name) block)))%nat).
      { apply size_two. exists USER_ROLE, CHAR_ROLE.
        repeat split; [| |apply roles_differ]; unfold roles_of;
          apply elem_of_list_to_set, list_elem_of_fmap.
        - exists (role_pair user_name mu). split.
          + unfold role_pair. cbn [fst]. by rewrite decide_True.
          + apply list_elem_of_fmap. by exists mu.
        - exists (role_pair user_name mc). split.
          + unfold role_pair. cbn [fst]. rewrite decide_False; [done|congruence].
          + apply list_elem_of_fmap. by exists mc. }
      lia.
    - destruct block; [by apply elem_of_nil in Hmu|done]. }
  cbn [List.filter]. rewrite Hkept. cbn [map]. by rewrite Hmapped.
Qed.

Lemma convert_to_json_format_two_party_witness :
  convert_to_json_format
    ([] ++ [[mk_msg (mk_datetime 2024 3 1 9 0) (lit "Alice") (lit "hi");
             mk_msg (mk_datetime 2024 3 1 9 1) (lit "Bob") (lit "hey");
             mk_msg (mk_datetime 2024 3 1 9 2) (lit "Bob") (lit "you?")]] ++ [])
    (lit "Alice") (lit "Bob")
  = [] ++ [[(USER_ROLE, lit "hi"); (CHAR_ROLE, lit "hey"); (CHAR_ROLE, lit "you?")]]
       ++ [].
Proof.
  apply (convert_to_json_format_two_party [] []).
  - discriminate.
  - repeat constructor; (by left) || (by right).
  - eexists. split; [apply list_elem_of_here|reflexivity].
  - eexists. split; [apply list_elem_of_further, list_elem_of_here|reflexivity].
Defined.

(** ** The length of the document *)

Ltac unfold_lengths :=
  repeat (rewrite length_app || rewrite length_cons).

Lemma length_escape_char (c : char) : length (escape_char c) = escape_width c.
Proof.
  destruct (N.ltb_spec c 32) as [Hlt|Hge].
  - apply control_cases in Hlt. cbn [In] in Hlt.
    repeat (destruct Hlt as [<-|Hlt]; [reflexivity|]). destruct Hlt.
  - unfold escape_char, escape_width, DQUOTE, BACKSLASH, NL, CR.
    destruct (N.eqb_spec c 34) as [->|_]; [reflexivity|].
    destruct (N.eqb_spec c 92) as [->|_]; [reflexivity|].
    destruct (N.eqb_spec c 8) as [->|_]; [reflexivity|].
    destruct (N.eqb_spec c 12) as [->|_]; [reflexivity|].
    destruct (N.eqb_spec c 10) as [->|_]; [reflexivity|].
    destruct (N.eqb_spec c 13) as [->|_]; [reflexivity|].
    destruct (N.eqb_spec c 9) as [->|_]; [reflexivity|].
    destruct (N.ltb_spec c 32); [lia|reflexivity].
Qed.

Lemma length_escaped (text : str) :
  length (flat_map escape_char text) = list_sum (map escape_width text).
Proof.
  induction text as [|c text IH]; [done|].
  cbn [flat_map map list_sum]. by rewrite length_app, length_escape_char, IH.
Qed.

Lemma commas_cons {X} (x : X) (l : list X) :
  commas (x :: l) = ((match l with [] => 0 | _ :: _ => 1 end) + commas l)%nat.
Proof. by destruct l. Qed.

Lemma length_pair_lines (conv : Conversation) :
  forall n j, j + len_list conv = n ->
    length (behind_newlines (pair_lines n j conv))
    = (list_sum (map (fun p => 1 + pair_length p) conv) + commas conv)%nat.
Proof.
  induction conv as [|[key text] conv IH]; intros n j Hn; [done|].
  rewrite pair_lines_cons, behind_newlines_cons, (more_pairs n j _ _ Hn).
  unfold_lengths. rewrite length_escaped, (IH n (j + 1)).
  - rewrite commas_cons. unfold pair_length, dumps_length.
    cbn [map list_sum fst snd]. change (length (lit "      ")) with 6%nat.
    change (length (lit ": ")) with 2%nat.
    destruct conv; simpl; lia.
  - unfold len_list in *. cbn [length] in Hn. lia.
Qed.

Lemma length_conversation_lines (conversations : list Conversation) :
  forall n i, i + len_list conversations = n ->
    length (behind_newlines (conversation_lines n i conversations))
    = (list_sum (map conversation_length conversations)
       + commas conversations)%nat.
Proof.
  induction conversations as [|conv conversations IH]; intros n i Hn; [done|].
  rewrite conversation_lines_cons, behind_newlines_cons, behind_newlines_app,
    behind_newlines_cons, (more_conversations n i _ _ Hn).
  unfold_lengths. rewrite (length_pair_lines conv (len_list conv) 0 (Z.add_0_l _)),
    (IH n (i + 1)).
  - rewrite commas_cons. unfold conversation_length.
    cbn [map list_sum]. change (length (lit "    {")) with 5%nat.
    change (length (lit "    }")) with 5%nat.
    destruct conversations; simpl; lia.
  - unfold len_list in *. cbn [length] in Hn. lia.
Qed.

Lemma length_serialize (conversations : list Conversation) :
  length (serialize_to_json_with_duplicate_keys conversations)
  = document_length conversations.
Proof.
  unfold serialize_to_json_with_duplicate_keys, join. cbn [app].
  change (flat_map (fun q => [NL] ++ q) ?l) with (behind_newlines l).
  rewrite behind_newlines_cons, behind_newlines_app.
  unfold_lengths. rewrite (length_conversation_lines conversations (len_list conversations) 0
             (Z.add_0_l _)).
  unfold document_length.
  change (length (lit "{")) with 1%nat. change (length (lit "  ")) with 2%nat.
  change (length (lit "example_conversation")) with 20%nat.
  change (length (lit ": [")) with 3%nat.
  change (length [DQUOTE]) with 1%nat.
  change (length (behind_newlines [lit "  ]"; lit "}"])) with 6%nat.
  lia.
Qed.

(** X12: the length of the document, counted from its parts: 35 characters
    for the frame, 12 for the braces of each conversation, a line of 11
    characters plus key and escaped value for each pair, and the commas
    between pairs and between conversations. An escaped character takes two
    characters for the quote, the backslash and the five short escapes, six
    for any other control character and one otherwise. *)
Theorem serialize_length (conversations : list Conversation) :
  len (serialize_to_json_with_duplicate_keys conversations)
  = Z.of_nat (document_length conversations).
Proof. unfold len. by rewrite length_serialize. Qed.

(** ** The Capacity Selector *)

Lemma document_length_app (l l' : list Conversation) :
  (document_length l <= document_length (l ++ l'))%nat.
Proof.
  unfold document_length, commas.
  rewrite map_app, list_sum_app, length_app. lia.
Qed.

(** A prefix of a selection within the budget is within the budget. *)
Lemma fits_prefix (character_limit : Z) (l l' : list Conversation) :
  fits character_limit (l ++ l') -> fits character_limit l.
Proof.
  unfold fits, len. rewrite !length_serialize.
  pose proof (document_length_app l l'). lia.
Qed.

(** What one greedy pass returns: the start extended by the conversations
    before the first one that does not fit. *)
Lemma greedy_fill_stops (character_limit : Z) (rest result : list Conversation) :
  exists k, (k <= length rest)%nat
    /\ greedy_fill character_limit result rest = result ++ take k rest
    /\ (forall i, (0 < i <= k)%nat -> fits character_limit (result ++ take i rest))
    /\ ((k < length rest)%nat ->
        ~ fits character_limit (result ++ take (S k) rest)).
Proof.
  revert result. induction rest as [|conv rest IH]; intros result.
  - exists 0%nat. cbn. rewrite app_nil_r. repeat split; [lia..|lia].
  - cbn [greedy_fill].
    destruct (Z.leb_spec (len (serialize_to_json_with_duplicate_keys
                                 (result ++ [conv]))) character_limit)
      as [Hfit|Hnot].
    + destruct (IH (result ++ [conv])) as (k & Hk & Heq & Hall & Hstop).
      exists (S k). cbn [length take]. repeat split.
      * lia.
      * by rewrite Heq, <- app_assoc.
      * intros [|i] Hi; [lia|]. cbn [take].
        destruct i as [|i]; [by rewrite take_0|].
        specialize (Hall (S i) ltac:(lia)). by rewrite <- app_assoc in Hall.
      * intros Hlt. specialize (Hstop ltac:(lia)).
        by rewrite <- app_assoc in Hstop.
    + exists 0%nat. cbn [length take]. rewrite app_nil_r. repeat split.
      * lia.
      * intros i Hi. lia.
      * intros _. rewrite take_0. unfold fits. lia.
Qed.

(** The two ways [fit_to_character_limit] ends. *)
Lemma fit_cases (shuffle : list Conversation -> list Conversation)
    (conversations : list Conversation) (character_limit : Z) :
  fit_to_character_limit shuffle conversations character_limit
  = greedy_fill character_limit [] conversations
  \/ fit_to_character_limit shuffle conversations character_limit
     = greedy_fill character_limit [] (shuffle conversations).
Proof.
  unfold fit_to_character_limit.
  destruct (Nat.eqb _ _); [by left|]. destruct (Nat.ltb _ _); [by right|by left].
Qed.

(** X13: a greedy pass selects the longest prefix all of whose prefixes
    fit, and since a longer selection gives a longer document, that is the
    longest prefix that fits: a prefix of the input fits the budget exactly
    when it is no longer than the selection of phase 1. *)
Theorem greedy_fill_longest_prefix
    (conversations : list Conversation) (character_limit : Z) (j : nat) :
  (0 < j <= length conversations)%nat ->
  greedy_fill character_limit [] conversations
  = take (length (greedy_fill character_limit [] conversations)) conversations
  /\ ((j <= length (greedy_fill character_limit [] conversations))%nat
      <-> fits character_limit (take j conversations)).
Proof.
  intros Hj.
  destruct (greedy_fill_stops character_limit conversations [])
    as (k & Hk & Heq & Hall & Hstop).
  cbn [app] in *. rewrite Heq, length_take, Nat.min_l by lia.
  split; [done|]. split.
  - intros Hjk. apply Hall. lia.
  - intros Hfit. destruct (decide (j <= k)%nat) as [|Hgt]; [done|].
    exfalso. apply Hstop; [lia|].
    apply (fits_prefix _ _ (take (j - S k) (drop (S k) conversations))).
    replace j with (S k + (j - S k))%nat in Hfit by lia.
    by rewrite <- take_take_drop in Hfit.
Qed.

Lemma greedy_fill_longest_prefix_witness :
  ~ fits 100 (take 2 [[(USER_ROLE, lit "hi"); (CHAR_ROLE, lit "hey")];
                      [(USER_ROLE, lit "a much longer opening line");
                       (CHAR_ROLE, lit "ok")]]).
Proof.
  intros Hfit.
  apply (greedy_fill_longest_prefix
           [[(USER_ROLE, lit "hi"); (CHAR_ROLE, lit "hey")];
            [(USER_ROLE, lit "a much longer opening line"); (CHAR_ROLE, lit "ok")]]
           100 2 ltac:(simpl; lia)) in Hfit.
  vm_compute in Hfit. lia.
Defined.

Lemma greedy_fill_take (character_limit : Z) (l : list Conversation) :
  exists k, greedy_fill character_limit [] l = take k l.
Proof.
  destruct (greedy_fill_stops character_limit l []) as (k & _ & Heq & _).
  by exists k.
Qed.

(** X14: when the shuffle permutes its argument, the selection is made of
    conversations of the input, each taken whole and at most as often as it
    occurs in the input; it is a prefix of the input or of the shuffled
    input. *)
Theorem fit_to_character_limit_selection
    (shuffle : list Conversation -> list Conversation)
    (conversations : list Conversation) (character_limit : Z) :
  (forall l, shuffle l ≡ₚ l) ->
  fit_to_character_limit shuffle conversations character_limit ⊆+ conversations
  /\ exists k,
       fit_to_character_limit shuffle conversations character_limit
       = take k conversations
       \/ fit_to_character_limit shuffle conversations character_limit
          = take k (shuffle conversations).
Proof.
  intros Hshuffle.
  destruct (fit_cases shuffle conversations character_limit) as [-> | ->].
  - destruct (greedy_fill_take character_limit conversations) as [k ->].
    split; [|by exists k; left].
    apply sublist_submseteq, sublist_take.
  - destruct (greedy_fill_take character_limit (shuffle conversations)) as [k ->].
    split; [|by exists k; right].
    rewrite <- (Hshuffle conversations) at 2.
    apply sublist_submseteq, sublist_take.
Qed.

Lemma fit_to_character_limit_selection_witness :
  fit_to_character_limit (fun l => rev l)
    [[(USER_ROLE, lit "hi"); (CHAR_ROLE, lit "hey")];
     [(USER_ROLE, lit "a much longer opening line"); (CHAR_ROLE, lit "ok")]] 130
  = [[(USER_ROLE, lit "a much longer opening line"); (CHAR_ROLE, lit "ok")]]
  /\ [[(USER_ROLE, lit "a much longer opening line"); (CHAR_ROLE, lit "ok")]]
     ⊆+ [[(USER_ROLE, lit "hi"); (CHAR_ROLE, lit "hey")];
         [(USER_ROLE, lit "a much longer opening line"); (CHAR_ROLE, lit "ok")]].
Proof.
  assert (Hrun : fit_to_character_limit (fun l => rev l)
            [[(USER_ROLE, lit "hi"); (CHAR_ROLE, lit "hey")];
             [(USER_ROLE, lit "a much longer opening line"); (CHAR_ROLE, lit "ok")]]
            130
          = [[(USER_ROLE, lit "a much longer opening line"); (CHAR_ROLE, lit "ok")]])
    by (vm_compute; reflexivity).
  split; [exact Hrun|]. rewrite <- Hrun.
  refine (proj1 (fit_to_character_limit_selection (fun l => rev l) _ _ _)).
  intros l. symmetry. apply Permutation_rev.
Defined.

(** X15: when no conversation fits the budget on its own, the selection is
    empty, whatever the order the shuffle produces. *)
Theorem fit_to_character_limit_none_fits
    (shuffle : list Conversation -> list Conversation)
    (conversations : list Conversation) (character_limit : Z) :
  (forall l, shuffle l ≡ₚ l) ->
  Forall (fun conv => ~ fits character_limit [conv]) conversations ->
  fit_to_character_limit shuffle conversations character_limit = [].
Proof.
  intros Hshuffle Hall.
  assert (Hgreedy : forall l, Forall (fun conv => ~ fits character_limit [conv]) l ->
                              greedy_fill character_limit [] l = []).
  { intros [|conv l] Hl; [done|]. cbn [greedy_fill app].
    apply Forall_cons in Hl as [Hconv _]. unfold fits in Hconv.
    destruct (Z.leb_spec (len (serialize_to_json_with_duplicate_keys [conv]))
                character_limit); [lia|done]. }
  destruct (fit_cases shuffle conversations character_limit) as [-> | ->];
    apply Hgreedy; [done|].
  by rewrite Hshuffle.
Qed.

Lemma fit_to_character_limit_none_fits_witness :
  fit_to_character_limit (fun l => rev l)
    [[(USER_ROLE, lit "hi"); (CHAR_ROLE, lit "hey")];
     [(USER_ROLE, lit "a much longer opening line"); (CHAR_ROLE, lit "ok")]] 60
  = [].
Proof.
  apply fit_to_character_limit_none_fits.
  - intros l. symmetry. apply Permutation_rev.
  - repeat constructor; unfold fits; vm_compute; intros H; by apply H.
Defined.

(** X16: selecting again from a selection changes nothing: the output of
    [fit_to_character_limit] passes phase 1 whole. *)
Theorem fit_to_character_limit_idempotent
    (shuffle shuffle' : list Conversation -> list Conversation)
    (conversations : list Conversation) (character_limit : Z) :
  fit_to_character_limit shuffle'
    (fit_to_character_limit shuffle conversations character_limit)
    character_limit
  = fit_to_character_limit shuffle conversations character_limit.
Proof.
  destruct (fit_is_greedy character_limit shuffle conversations) as [l Hl].
  set (chosen := fit_to_character_limit shuffle conversations character_limit)
    in *.
  assert (Hall : greedy_fill character_limit [] chosen = chosen).
  { apply (greedy_fill_all character_limit chosen []). intros k Hk. cbn [app].
    destruct (greedy_fill_fits character_limit l [] (or_introl eq_refl))
      as [Hnil|Hfit]; rewrite <- Hl in *.
    - rewrite Hnil in Hk. cbn in Hk. lia.
    - apply (fits_prefix character_limit _ (drop k chosen)).
      unfold fits. by rewrite take_drop. }
  unfold fit_to_character_limit at 1. rewrite Hall. by rewrite Nat.eqb_refl.
Qed.

(** ** The Sanitizer with nothing configured *)

Lemma sanitize_plain (msg : Msg) :
  sanitize false false None None msg
  = if blank (message msg) then None else Some (remove_newlines msg).
Proof.
  unfold sanitize. rewrite handle_media_unset, handle_links_unset.
  unfold skip_empty. destruct (strip (message msg)) eqn:Hstrip.
  - apply strip_nil in Hstrip. by rewrite Hstrip.
  - destruct (blank (message msg)) eqn:Hblank; [|done].
    apply strip_nil in Hblank. congruence.
Qed.

(** X17: with both filters off and no replacement configured, grouping only
    drops the messages whose body is blank and turns the newlines and
    carriage returns of the others into blanks; media markers and links
    stay. *)
Theorem group_by_time_gap_unfiltered (messages : list Msg) (split_minutes : Z) :
  concat (group_by_time_gap messages split_minutes false false None None)
  = map remove_newlines
        (List.filter (fun m => negb (blank (message m))) messages).
Proof.
  rewrite concat_group_by_time_gap.
  induction messages as [|m messages IH]; [done|].
  cbn [omap list_omap List.filter]. rewrite sanitize_plain.
  fold (omap (sanitize false false None None) messages).
  destruct (blank (message m)); cbn [negb map]; by rewrite IH.
Qed.

(** ** The pipeline *)

Lemma loads_serialize (conversations : list Conversation) :
  plain_keys conversations ->
  loads (serialize_to_json_with_duplicate_keys conversations)
  = Some (document_of conversations).
Proof.
  intros Hplain. unfold loads.
  assert (Hstart : skip_ws (serialize_to_json_with_duplicate_keys conversations)
                   = serialize_to_json_with_duplicate_keys conversations)
    by reflexivity.
  rewrite Hstart, (read_document conversations); [reflexivity|done|lia].
Qed.

(** What the Role Mapper emits for the blocks of the Segmenter. *)
Lemma convert_well_formed (blocks : list (list Msg)) (user_name char_name : str)
    (conv : Conversation) :
  Forall (Forall (fun m => (NL ∉ message m) /\ (CR ∉ message m))) blocks ->
  conv ∈ convert_to_json_format blocks user_name char_name ->
  well_formed_conversation conv.
Proof.
  intros Hlines. rewrite convert_to_json_format_eq, list_elem_of_fmap.
  intros [block [-> Hin]].
  apply list_elem_of_In, filter_In in Hin as [Hin Hkept].
  unfold kept in Hkept. apply andb_true_iff in Hkept as [Hsize _].
  pose proof (mapped_roles user_name char_name block) as Hroles.
  destruct (two_roles _ (roles_of_sub _ Hroles)) as [Hu Hc]; [lia|].
  split; [by apply roles_of_elem|]. split; [by apply roles_of_elem|].
  rewrite Forall_forall in Hlines.
  specialize (Hlines block (proj2 (list_elem_of_In _ _) Hin)).
  unfold mapped in *. rewrite Forall_forall in Hroles.
  rewrite Forall_forall in Hlines.
  apply Forall_forall. intros p Hp. split; [by apply Hroles|].
  apply list_elem_of_fmap in Hp as [m [-> Hm]].
  apply list_elem_of_In, filter_In in Hm as [Hm _].
  apply (Hlines m), list_elem_of_In, Hm.
Qed.

Lemma group_by_time_gap_single_lines
    (messages : list Msg) (split_minutes : Z) (filter_media filter_links : bool)
    (media_replacement link_replacement : option str) :
  Forall (Forall (fun m => (NL ∉ message m) /\ (CR ∉ message m)))
         (group_by_time_gap messages split_minutes filter_media filter_links
                            media_replacement link_replacement).
Proof.
  apply Forall_forall. intros block Hblock. apply Forall_forall. intros m Hm.
  assert (Hin : In m (concat (group_by_time_gap messages split_minutes
                     filter_media filter_links media_replacement
                     link_replacement))).
  { apply in_concat. exists block. by rewrite <- !list_elem_of_In. }
  rewrite concat_group_by_time_gap in Hin.
  apply list_elem_of_In, list_elem_of_omap in Hin as [m0 [_ Hkept]].
  by apply sanitize_keeps in Hkept as (_ & _ & Hnl & Hcr).
Qed.

Lemma filter_single_speaker_blocks_sub (blocks : list (list Msg)) (min_messages : Z)
    (P : list Msg -> Prop) :
  Forall P blocks -> Forall P (filter_single_speaker_blocks blocks min_messages).
Proof.
  rewrite !Forall_forall. intros HP block Hin. apply HP.
  unfold filter_single_speaker_blocks in Hin.
  by apply list_elem_of_In, filter_In in Hin as [Hin _]; apply list_elem_of_In.
Qed.

Lemma well_formed_plain (conversations : list Conversation) :
  Forall well_formed_conversation conversations -> plain_keys conversations.
Proof.
  intros Hwf. eapply Forall_impl; [exact Hwf|].
  intros conv (_ & _ & Hconv). eapply Forall_impl; [exact Hconv|].
  intros p [[-> | ->] _]; reflexivity.
Qed.

(** X18: whatever the transcript and the settings, with a shuffle that
    permutes its argument the text the pipeline writes is a JSON document
    that reads back as exactly the selection the pipeline made: the output of
    [fit_to_character_limit] on the conversations of the Role Mapper. The
    selected conversations are conversations of the Role Mapper; each has
    both roles, no other key, and single-line texts; and for a budget of 35
    characters or more the text is within the budget. *)
Theorem generate_conversation_json_sound
    (shuffle : list Conversation -> list Conversation)
    (lines : list str) (split_minutes character_limit : Z)
    (filter_media filter_links : bool) (user_name char_name : str)
    (min_messages_per_conversation : Z)
    (media_replacement link_replacement : option str) :
  (forall l, shuffle l ≡ₚ l) ->
  let json_str :=
    generate_conversation_json shuffle lines split_minutes character_limit
      filter_media filter_links user_name char_name
      min_messages_per_conversation media_replacement link_replacement in
  let mapped_blocks :=
    convert_to_json_format
      (filter_single_speaker_blocks
         (group_by_time_gap (parse_whatsapp_chat lines) split_minutes
            filter_media filter_links media_replacement link_replacement)
         min_messages_per_conversation)
      user_name char_name in
  let selected := fit_to_character_limit shuffle mapped_blocks character_limit in
  (loads json_str ≫= example_conversation) = Some selected
  /\ selected ⊆+ mapped_blocks
  /\ Forall well_formed_conversation selected
  /\ (35 <= character_limit -> len json_str <= character_limit).
Proof.
  intros Hshuffle json_str mapped_blocks selected.
  assert (Hmapped : Forall well_formed_conversation mapped_blocks).
  { apply Forall_forall. intros conv Hconv.
    eapply convert_well_formed; [|exact Hconv].
    apply filter_single_speaker_blocks_sub, group_by_time_gap_single_lines. }
  assert (Hsub : selected ⊆+ mapped_blocks).
  { unfold selected.
    destruct (fit_cases shuffle mapped_blocks character_limit) as [-> | ->].
    - destruct (greedy_fill_take character_limit mapped_blocks) as [k ->].
      apply sublist_submseteq, sublist_take.
    - destruct (greedy_fill_take character_limit (shuffle mapped_blocks))
        as [k ->].
      rewrite <- (Hshuffle mapped_blocks) at 2.
      apply sublist_submseteq, sublist_take. }
  assert (Hselected : Forall well_formed_conversation selected).
  { apply Forall_forall. intros conv Hconv. rewrite Forall_forall in Hmapped.
    apply Hmapped. eapply elem_of_submseteq; [exact Hconv|exact Hsub]. }
  assert (Htext : json_str = serialize_to_json_with_duplicate_keys selected)
    by reflexivity.
  repeat split; [|exact Hsub|exact Hselected|].
  - rewrite Htext, (loads_serialize selected (well_formed_plain _ Hselected)).
    apply example_conversation_document_of.
  - intros Hlimit. rewrite Htext. unfold selected.
    destruct (fit_is_greedy character_limit shuffle mapped_blocks) as [l ->].
    destruct (greedy_fill_fits character_limit l [] (or_introl eq_refl))
      as [-> | H]; [|exact H].
    rewrite serialize_empty_len. exact Hlimit.
Qed.

Lemma generate_conversation_json_sound_witness :
  (loads (generate_conversation_json (fun l => rev l)
            [lit "3/1/24, 9:00 AM - Alice: hi"; lit "3/1/24, 9:01 AM - Bob: hey";
             lit "3/1/24, 9:20 AM - Alice: bye"]
            15 200 true true (lit "Alice") (lit "Bob") 2 None None)
   ≫= example_conversation)
  = Some [[(USER_ROLE, lit "hi"); (CHAR_ROLE, lit "hey")]]
  /\ len (generate_conversation_json (fun l => rev l)
            [lit "3/1/24, 9:00 AM - Alice: hi"; lit "3/1/24, 9:01 AM - Bob: hey";
             lit "3/1/24, 9:20 AM - Alice: bye"]
            15 200 true true (lit "Alice") (lit "Bob") 2 None None)
     <= 200.
Proof.
  assert (Hshuffle : forall l : list Conversation, rev l ≡ₚ l).
  { intros l. symmetry. apply Permutation_rev. }
  pose proof (generate_conversation_json_sound (fun l => rev l)
                [lit "3/1/24, 9:00 AM - Alice: hi"; lit "3/1/24, 9:01 AM - Bob: hey";
                 lit "3/1/24, 9:20 AM - Alice: bye"]
                15 200 true true (lit "Alice") (lit "Bob") 2 None None Hshuffle)
    as Hsound.
  cbv zeta in Hsound. destruct Hsound as (Hread & _ & _ & Hlen).
  split; [|apply Hlen; lia].
  etransitivity; [exact Hread|]. vm_compute. reflexivity.
Defined.

(** X19: a transcript without a header line gives the document of the empty
    selection, 35 characters long, whatever the settings. *)
Theorem generate_conversation_json_no_header
    (shuffle : list Conversation -> list Conversation)
    (lines : list str) (split_minutes character_limit : Z)
    (filter_media filter_links : bool) (user_name char_name : str)
    (min_messages_per_conversation : Z)
    (media_replacement link_replacement : option str) :
  Forall (fun line => header_of line = None) lines ->
  generate_conversation_json shuffle lines split_minutes character_limit
    filter_media filter_links user_name char_name
    min_messages_per_conversation media_replacement link_replacement
  = lit "{" ++ [NL] ++ lit "  " ++ [DQUOTE] ++ lit "example_conversation"
    ++ [DQUOTE] ++ lit ": [" ++ [NL] ++ lit "  ]" ++ [NL] ++ lit "}".
Proof.
  intros Hlines. unfold generate_conversation_json.
  assert (Hparse : parse_whatsapp_chat lines = []).
  { rewrite parse_whatsapp_chat_finish, (assemble_no_header lines Hlines).
    reflexivity. }
  rewrite Hparse. reflexivity.
Qed.

Lemma generate_conversation_json_no_header_witness :
  len (generate_conversation_json (fun l => l)
         [lit "Messages and calls are end-to-end encrypted."; lit ""]
         15 20000 true true (lit "Alice") (lit "Bob") 4 None None) = 35.
Proof.
  rewrite (generate_conversation_json_no_header (fun l => l)
             [lit "Messages and calls are end-to-end encrypted."; lit ""]).
  - reflexivity.
  - repeat constructor.
Defined.

(** X20: the document determines the selection: two lists of conversations
    with role tokens as keys that serialize to the same text are equal. *)
Theorem serialize_injective (conversations1 conversations2 : list Conversation) :
  role_keys conversations1 -> role_keys conversations2 ->
  serialize_to_json_with_duplicate_keys conversations1
  = serialize_to_json_with_duplicate_keys conversations2 ->
  conversations1 = conversations2.
Proof.
  intros H1 H2 Heq.
  pose proof (loads_serialize _ (role_keys_plain _ H1)) as L1.
  pose proof (loads_serialize _ (role_keys_plain _ H2)) as L2.
  rewrite Heq, L2 in L1.
  pose proof (f_equal (fun o => o ≫= example_conversation) L1) as Hdoc.
  cbn [mbind option_bind] in Hdoc.
  rewrite !example_conversation_document_of in Hdoc. congruence.
Qed.

Lemma serialize_injective_witness :
  [[(USER_ROLE, lit "hi"); (CHAR_ROLE, lit "hey")]]
  = [[(USER_ROLE, lit "hi"); (CHAR_ROLE, lit "hey")]].
Proof.
  apply serialize_injective; [| |reflexivity];
    repeat first [apply List.Forall_nil | apply List.Forall_cons
                 | left; reflexivity | right; reflexivity].
Defined.

(** X21: every message of the assembled transcript has a time stamp that is
    a date of the calendar with a time of the day, and a speaker without
    white space at either end. *)
Theorem parse_whatsapp_chat_messages (lines : list str) :
  Forall (fun m => valid_datetime (timestamp m) /\ trimmed (username m))
         (parse_whatsapp_chat lines).
Proof.
  pose proof (parse_whatsapp_chat_grown lines) as Hgrown.
  assert (Hheaders : Forall (fun h => valid_datetime (timestamp h)
                                      /\ trimmed (username h))
                            (omap header_of lines)).
  { apply Forall_forall. intros h Hh.
    apply list_elem_of_omap in Hh as [line [_ Hline]].
    apply parse_whatsapp_line_some in Hline. tauto. }
  induction Hgrown as [|m h ms hs (Ht & Hu & _) _ IH]; [constructor|].
  apply Forall_cons in Hheaders as [[Hvalid Htrim] Hrest].
  constructor; [|by apply IH]. by rewrite Ht, Hu.
Qed.

(** * The budget and the media policy, at the output *)

(** Every document has the 35 characters of its frame. *)
Lemma serialize_at_least_frame (conversations : list Conversation) :
  35 <= len (serialize_to_json_with_duplicate_keys conversations).
Proof.
  unfold len. rewrite length_serialize. unfold document_length. lia.
Qed.

(** C1, as amended: for a budget of at least 35 characters (the length of
    the document of the empty selection), serializing the output of
    [fit_to_character_limit] gives at most [character_limit] characters,
    whatever the shuffle does; for a budget below 35 every selection, the
    empty one included, serializes to more than [character_limit]
    characters, and the selector returns the empty selection. *)
Theorem fit_to_character_limit_within_budget
    (shuffle : list Conversation -> list Conversation)
    (conversations : list Conversation) (character_limit : Z) :
  (35 <= character_limit ->
   len (serialize_to_json_with_duplicate_keys
          (fit_to_character_limit shuffle conversations character_limit))
   <= character_limit)
  /\ (character_limit < 35 ->
      (forall selection : list Conversation,
          character_limit
          < len (serialize_to_json_with_duplicate_keys selection))
      /\ fit_to_character_limit shuffle conversations character_limit = []).
Proof.
  destruct (fit_is_greedy character_limit shuffle conversations) as [l ->].
  pose proof (greedy_fill_fits character_limit l [] (or_introl eq_refl))
    as Hfits.
  split.
  - intros Hlimit. destruct Hfits as [-> | H]; [|exact H].
    rewrite serialize_empty_len. exact Hlimit.
  - intros Hsmall. split.
    + intros selection. pose proof (serialize_at_least_frame selection). lia.
    + destruct Hfits as [Hnil | H]; [exact Hnil|].
      pose proof (serialize_at_least_frame
                    (greedy_fill character_limit [] l)). lia.
Qed.

Lemma fit_to_character_limit_within_budget_witness :
  let conversations :=
    [[(USER_ROLE, lit "hi"); (CHAR_ROLE, lit "hey")];
     [(USER_ROLE, lit "a much longer opening line"); (CHAR_ROLE, lit "ok")]] in
  (fit_to_character_limit (fun l => rev l) conversations 130
   = [[(USER_ROLE, lit "a much longer opening line"); (CHAR_ROLE, lit "ok")]]
   /\ len (serialize_to_json_with_duplicate_keys
             (fit_to_character_limit (fun l => rev l) conversations 130))
      <= 130)
  /\ fit_to_character_limit (fun l => rev l) conversations 20 = [].
Proof.
  intros conversations. split; [split|].
  - vm_compute. reflexivity.
  - apply (fit_to_character_limit_within_budget (fun l => rev l)
             conversations 130). lia.
  - apply (fit_to_character_limit_within_budget (fun l => rev l)
             conversations 20). lia.
Defined.






